(** * datastore-fs: a datastore backed by the file system

    A shallow embedding of [src/index.js] (class [FsDatastore] and the helper
    [writeFile]) together with executable models of the library functions it
    calls: JavaScript string methods, Node's POSIX [path] module, the [Key]
    class of interface-datastore, its error constructors, and the file-system
    primitives ([fs.access], [fs.readFile], [fs.unlink], [fs.existsSync],
    [mkdirp], [fast-write-atomic], [glob.sync]) over an in-memory tree. *)

From Stdlib Require Import ZArith Ascii String List Bool Lia.
From Stdlib Require Import Strings.Byte.
From stdpp Require Import base decidable option list gmap strings.

Local Open Scope Z_scope.
Local Open Scope list_scope.

(** ** JavaScript strings

    A JavaScript string is a sequence of characters; [jsstring] is the list of
    its characters, and [str "..."] writes a literal. *)

Module JsString.

Abbreviation jsstring := (list ascii).

Definition str (s : string) : jsstring := list_ascii_of_string s.

Definition slash : ascii := "/"%char.
Definition dot : ascii := "."%char.
Definition star : ascii := "*"%char.

(** [s.length] *)
Definition len (s : jsstring) : Z := Z.of_nat (length s).

(** [s.split(sep)] for a separator of one character: [''.split('/')] is
    [['']]. *)
Fixpoint split (sep : ascii) (s : jsstring) : list jsstring :=
  match s with
  | [] => [[]]
  | c :: s' =>
      if decide (c = sep) then [] :: split sep s'
      else match split sep s' with
           | [] => [[c]]
           | seg :: rest => (c :: seg) :: rest
           end
  end.

(** [l.join(sep)] *)
Fixpoint join (sep : jsstring) (l : list jsstring) : jsstring :=
  match l with
  | [] => []
  | [x] => x
  | x :: rest => x ++ sep ++ join sep rest
  end.

(** [s.slice(start, end)]: a negative index counts from the end of the
    string, both indices are clamped to [0, s.length], and [-0] is [0]. *)
Definition clamp (n : Z) (i : Z) : Z :=
  if i <? 0 then Z.max (n + i) 0 else Z.min i n.

Definition slice (s : jsstring) (start stop : Z) : jsstring :=
  let from := clamp (len s) start in
  let to := clamp (len s) stop in
  take (Z.to_nat (Z.max (to - from) 0)) (drop (Z.to_nat from) s).

(** [s.slice(start)] *)
Definition slice_from (s : jsstring) (start : Z) : jsstring :=
  slice s start (len s).

(** [s.startsWith(p)] *)
Fixpoint startsWith (p s : jsstring) : bool :=
  match p, s with
  | [], _ => true
  | _ :: _, [] => false
  | a :: p', b :: s' => bool_decide (a = b) && startsWith p' s'
  end.

Definition last_char (s : jsstring) : option ascii := last s.

End JsString.
Export JsString.

(** ** Node's [path] module, POSIX flavour ([path.sep] is ['/']) *)

Module Path.

Definition sep : ascii := slash.

Definition dotdot : jsstring := [dot; dot].

(** [normalizeString]: the segments of a path are scanned from the left;
    empty segments and ['.'] are dropped, ['..'] removes the segment before
    it, or is kept when there is none and the path may climb above its
    start. [acc] holds the segments kept so far, last one first. *)
Fixpoint normalizeSegs (allowAboveRoot : bool) (acc : list jsstring)
    (segs : list jsstring) : list jsstring :=
  match segs with
  | [] => rev acc
  | s :: segs' =>
      if decide (s = []) then normalizeSegs allowAboveRoot acc segs'
      else if decide (s = [dot]) then normalizeSegs allowAboveRoot acc segs'
      else if decide (s = dotdot) then
        match acc with
        | top :: acc' =>
            if decide (top = dotdot) then
              if allowAboveRoot
              then normalizeSegs allowAboveRoot (dotdot :: acc) segs'
              else normalizeSegs allowAboveRoot acc segs'
            else normalizeSegs allowAboveRoot acc' segs'
        | [] =>
            if allowAboveRoot
            then normalizeSegs allowAboveRoot [dotdot] segs'
            else normalizeSegs allowAboveRoot [] segs'
        end
      else normalizeSegs allowAboveRoot (s :: acc) segs'
  end.

Definition normalizeString (p : jsstring) (allowAboveRoot : bool) : jsstring :=
  join [slash] (normalizeSegs allowAboveRoot [] (split slash p)).

Definition isAbsolute (p : jsstring) : bool :=
  bool_decide (head p = Some slash).

Definition trailingSeparator (p : jsstring) : bool :=
  bool_decide (last p = Some slash).

(** [path.normalize(p)] *)
Definition normalize (p : jsstring) : jsstring :=
  match p with
  | [] => [dot]
  | _ =>
      let abs := isAbsolute p in
      let trailing := trailingSeparator p in
      match normalizeString p (negb abs) with
      | [] => if abs then [slash] else if trailing then [dot; slash] else [dot]
      | q =>
          (if abs then [slash] else []) ++ q ++ (if trailing then [slash] else [])
      end
  end.

(** [path.join(...parts)]: the non-empty parts joined by ['/'], normalized. *)
Definition path_join (parts : list jsstring) : jsstring :=
  match filter (λ p, p ≠ []) parts with
  | [] => [dot]
  | ps => normalize (join [slash] ps)
  end.

(** [path.resolve(location)], with the working directory [cwd] of the process
    (an absolute path) made explicit: the result is absolute and normalized,
    and has no trailing separator. *)
Definition path_resolve (cwd location : jsstring) : jsstring :=
  let p := if isAbsolute location then location
           else cwd ++ [slash] ++ location in
  slash :: normalizeString p false.

(** The part of [p] after its last ['/'], trailing separators ignored. *)
Fixpoint strip_trailing (s : jsstring) : jsstring :=
  match s with
  | [] => []
  | c :: s' =>
      match strip_trailing s' with
      | [] => if decide (c = slash) then [] else [c]
      | r => c :: r
      end
  end.

Definition basename (p : jsstring) : jsstring :=
  List.last (split slash (strip_trailing p)) [].

(** Index of the last ['.'] of [s], if any. *)
Fixpoint lastDot (s : jsstring) : option nat :=
  match s with
  | [] => None
  | c :: s' =>
      match lastDot s' with
      | Some i => Some (S i)
      | None => if decide (c = dot) then Some 0%nat else None
      end
  end.

(** [path.extname(p)]: from the last ['.'] of the last segment to its end;
    empty when there is no ['.'], when the only one is the first character of
    the segment, and for the segment ['..']. *)
Definition extname (p : jsstring) : jsstring :=
  let base := basename p in
  match lastDot base with
  | None => []
  | Some O => []
  | Some i => if decide (base = dotdot) then [] else drop i base
  end.

End Path.
Export Path.

(** ** The [Key] class of interface-datastore *)

Module KeyClass.

Record Key := mkKey { _buf : jsstring }.

#[global] Instance Key_eq_dec : EqDecision Key.
Proof. solve_decision. Defined.

(** The loop of [clean()]: while the buffer is longer than one character and
    ends with ['/'], drop its last character. [r] is the buffer reversed. *)
Fixpoint pop_slashes (r : jsstring) : jsstring :=
  match r with
  | c :: (_ :: _) as r' => if decide (c = slash) then pop_slashes r' else r
  | _ => r
  end.

(** [clean()]: an empty buffer becomes ['/'], a leading ['/'] is added when
    missing, trailing slashes are removed. *)
Definition clean (s : jsstring) : jsstring :=
  let s1 := match s with [] => [slash] | _ => s end in
  let s2 := if bool_decide (head s1 = Some slash) then s1 else slash :: s1 in
  rev (pop_slashes (rev s2)).

(** [new Key(s)] (cleaning is the default; after it the buffer starts with
    ['/'], so the constructor's check never throws). *)
Definition Key_new (s : jsstring) : Key := mkKey (clean s).

Definition toString (k : Key) : jsstring := _buf k.

(** [key.list()]: [toString().split('/').slice(1)] *)
Definition list_ (k : Key) : list jsstring := tail (split slash (toString k)).

(** [key.parent()] *)
Definition parent (k : Key) : Key :=
  let l := list_ k in
  if bool_decide (length l = 1%nat) then Key_new [slash]
  else Key_new (join [slash] (removelast l)).

End KeyClass.
Export KeyClass.

(** ** Errors

    A JavaScript error is modelled by the two fields the program inspects:
    [code] and [syscall] (the empty string stands for an absent field; the
    message text is not modelled). The error constructors of
    interface-datastore tag the error they are given with their code
    (err-code overwrites [err.code] and returns the same error). *)

Module Errors.

Record js_error := mkError { code : string; syscall : string }.

#[global] Instance js_error_eq_dec : EqDecision js_error.
Proof. solve_decision. Defined.

(** [new Error(message)] *)
Definition new_Error : js_error := mkError "" "".

Definition errcode (err : js_error) (c : string) : js_error :=
  {| code := c; syscall := syscall err |}.

Definition notFoundError (err : js_error) := errcode err "ERR_NOT_FOUND".
Definition dbOpenFailedError (err : js_error) := errcode err "ERR_DB_OPEN_FAILED".
Definition dbWriteFailedError (err : js_error) := errcode err "ERR_DB_WRITE_FAILED".
Definition dbDeleteFailedError (err : js_error) := errcode err "ERR_DB_DELETE_FAILED".

Inductive result (A : Type) : Type :=
  | Ok (a : A)
  | Err (e : js_error).
Arguments Ok {A} a.
Arguments Err {A} e.

Definition is_ok {A} (r : result A) : bool :=
  match r with Ok _ => true | Err _ => false end.

End Errors.
Export Errors.

(** ** The file system

    The tree maps the segments of an absolute path to the node found there;
    a regular file carries its permission bits (laid out as [fs.constants]:
    [R_OK = 4], [W_OK = 2], [X_OK = 1]) and its bytes. Directories are always
    searchable and writable. The paths handed to the primitives come out of
    [path.join], so ['.'] and ['..'] are ordinary names here. Error codes are
    those of Linux.

    [write_faults] records, per destination, the error with which the
    environment makes an atomic write fail. It stands for what the source
    describes above the race resolution of [writeFile]: "fast-write-atomic
    writes a file to a temp location before renaming it. On Windows, if the
    final file already exists this error is thrown." *)

Module Fs.

Inductive node : Type :=
  | File (mode : Z) (data : list byte)
  | Dir.

#[global] Instance byte_eq_dec : EqDecision byte := Byte.byte_eq_dec.

#[global] Instance node_eq_dec : EqDecision node.
Proof. solve_decision. Defined.

Abbreviation fstree := (gmap (list jsstring) node).

Record world := mkWorld {
  tree : fstree;
  write_faults : gmap (list jsstring) js_error
}.

Definition with_tree (w : world) (t : fstree) : world :=
  {| tree := t; write_faults := write_faults w |}.

(** The outcome of a call: a result and the world after it. *)
Definition io (A : Type) : Type := world → result A * world.

#[global] Instance io_ret : MRet io := λ A a w, (Ok a, w).
#[global] Instance io_bind : MBind io := λ A B f m w,
  match m w with
  | (Ok a, w') => f a w'
  | (Err e, w') => (Err e, w')
  end.

Definition throw {A} (e : js_error) : io A := λ w, (Err e, w).

(** [try { body } catch (err) { handler }] *)
Definition try_catch {A} (body : io A) (handler : js_error → io A) : io A :=
  λ w, match body w with
       | (Ok a, w') => (Ok a, w')
       | (Err e, w') => handler e w'
       end.

Definition F_OK : Z := 0.
Definition R_OK : Z := 4.
Definition W_OK : Z := 2.

(** The non-empty segments of a path. *)
Definition segments (p : jsstring) : list jsstring :=
  filter (λ s, s ≠ []) (split slash p).

(** The path of a list of segments. *)
Definition path_of (segs : list jsstring) : jsstring :=
  slash :: join [slash] segs.

Inductive lookup_result : Type :=
  | Found (n : node)
  | Missing (errno : string).

(** Path resolution from the root: every segment but the last must name a
    directory. *)
Fixpoint walk (t : fstree) (pre rest : list jsstring) : lookup_result :=
  match rest with
  | [] => match t !! pre with
          | Some n => Found n
          | None => Missing "ENOENT"
          end
  | s :: rest' =>
      match t !! pre with
      | Some Dir => walk t (pre ++ [s]) rest'
      | Some (File _ _) => Missing "ENOTDIR"
      | None => Missing "ENOENT"
      end
  end.

(** The node a path names. Paths are absolute; the empty path names
    nothing, and a path with a trailing separator names a directory only. *)
Definition lookup_path (p : jsstring) (t : fstree) : lookup_result :=
  match p with
  | [] => Missing "ENOENT"
  | _ =>
      match walk t [] (segments p) with
      | Found (File m d) =>
          if trailingSeparator p then Missing "ENOTDIR" else Found (File m d)
      | r => r
      end
  end.

(** [fs.existsSync(p)] *)
Definition existsSync (p : jsstring) : io bool := λ w,
  match lookup_path p (tree w) with
  | Found _ => (Ok true, w)
  | Missing _ => (Ok false, w)
  end.

(** [fs.access(p, mode)] *)
Definition fsAccess (p : jsstring) (mode : Z) : io unit := λ w,
  match lookup_path p (tree w) with
  | Found (File m _) =>
      if Z.land m mode =? mode then (Ok tt, w)
      else (Err (mkError "EACCES" "access"), w)
  | Found Dir => (Ok tt, w)
  | Missing c => (Err (mkError c "access"), w)
  end.

(** [fs.readFile(p)] *)
Definition fsReadFile (p : jsstring) : io (list byte) := λ w,
  match lookup_path p (tree w) with
  | Found (File m d) =>
      if Z.land m R_OK =? R_OK then (Ok d, w)
      else (Err (mkError "EACCES" "open"), w)
  | Found Dir => (Err (mkError "EISDIR" "read"), w)
  | Missing c => (Err (mkError c "open"), w)
  end.

(** [fs.unlink(p)] *)
Definition fsUnlink (p : jsstring) : io unit := λ w,
  match lookup_path p (tree w) with
  | Found (File _ _) => (Ok tt, with_tree w (delete (segments p) (tree w)))
  | Found Dir => (Err (mkError "EISDIR" "unlink"), w)
  | Missing c => (Err (mkError c "unlink"), w)
  end.

(** [mkdirp(p)]: every missing directory on the way to [p], and [p], is
    created; a regular file on the way is an error. *)
Fixpoint mkdirp_walk (t : fstree) (pre rest : list jsstring) : string + fstree :=
  match t !! pre with
  | Some (File _ _) =>
      inl (match rest with [] => "EEXIST" | _ => "ENOTDIR" end)%string
  | o =>
      let t' := match o with None => <[pre := Dir]> t | Some _ => t end in
      match rest with
      | [] => inr t'
      | s :: rest' => mkdirp_walk t' (pre ++ [s]) rest'
      end
  end.

Definition mkdirp (p : jsstring) : io unit := λ w,
  match p with
  | [] => (Err (mkError "ENOENT" "mkdir"), w)
  | _ =>
      match mkdirp_walk (tree w) [] (segments p) with
      | inr t' => (Ok tt, with_tree w t')
      | inl c => (Err (mkError c "mkdir"), w)
      end
  end.

(** [mkdirp.sync(p)] *)
Definition mkdirp_sync : jsstring → io unit := mkdirp.

(** [writeAtomic(p, contents)] of fast-write-atomic: the contents are written
    to a temporary file next to [p], which is then renamed to [p]. The new
    file is readable and writable. *)
Definition writeAtomic (p : jsstring) (contents : list byte) : io unit := λ w,
  let segs := segments p in
  match write_faults w !! segs with
  | Some e => (Err e, w)
  | None =>
      match p, segs with
      | [], _ => (Err (mkError "ENOENT" "open"), w)
      | _, [] => (Err (mkError "EISDIR" "rename"), w)
      | _, _ =>
          if trailingSeparator p then
            match walk (tree w) [] segs with
            | Found Dir => (Err (mkError "EISDIR" "rename"), w)
            | Found (File _ _) => (Err (mkError "ENOTDIR" "open"), w)
            | Missing c => (Err (mkError c "open"), w)
            end
          else
            match walk (tree w) [] (removelast segs) with
            | Found Dir =>
                match tree w !! segs with
                | Some Dir => (Err (mkError "EISDIR" "rename"), w)
                | _ => (Ok tt, with_tree w (<[segs := File 6 contents]> (tree w)))
                end
            | Found (File _ _) => (Err (mkError "ENOTDIR" "open"), w)
            | Missing c => (Err (mkError c "open"), w)
            end
      end
  end.

(** *** [glob.sync(pattern)]

    The pattern language modelled is the one the datastore uses: segments
    separated by ['/'], where ['**'] stands for any number of directories and
    ['*'] inside a segment for any run of characters; names starting with
    ['.'] are matched by a segment that starts with ['.'] only. Every other
    character stands for itself: the patterns of the statements below are
    built from strings without any character that glob gives a meaning. *)

Definition globstar : jsstring := [star; star].

Fixpoint wild (pat : jsstring) : jsstring → bool :=
  match pat with
  | [] => λ s, bool_decide (s = [])
  | c :: pat' =>
      if decide (c = star) then
        fix skip (s : jsstring) : bool :=
          wild pat' s || match s with [] => false | _ :: s' => skip s' end
      else
        λ s, match s with
             | [] => false
             | d :: s' => bool_decide (c = d) && wild pat' s'
             end
  end.

Definition hidden (name : jsstring) : bool := startsWith [dot] name.

Definition match_one (pat name : jsstring) : bool :=
  (negb (hidden name) || hidden pat) && wild pat name.

Fixpoint match_path (pat : list jsstring) : list jsstring → bool :=
  match pat with
  | [] => λ p, bool_decide (p = [])
  | ps :: pat' =>
      if decide (ps = globstar) then
        fix descend (p : list jsstring) : bool :=
          match_path pat' p ||
          match p with
          | [] => false
          | d :: p' => negb (hidden d) && descend p'
          end
      else
        λ p, match p with
             | [] => false
             | d :: p' => match_one ps d && match_path pat' p'
             end
  end.

Definition reachable (t : fstree) (segs : list jsstring) : bool :=
  match walk t [] segs with Found _ => true | Missing _ => false end.

(** The paths of the tree that the pattern matches (in no specified order). *)
Definition glob_sync (pattern : jsstring) (w : world) : list jsstring :=
  path_of <$>
    filter (λ segs, match_path (segments pattern) segs && reachable (tree w) segs)
           (elements (dom (tree w))).

End Fs.
Export Fs.

(** ** The datastore ([src/index.js]) *)

Module Datastore.

(** [writeFile(path, contents)] *)
Definition writeFile (path : jsstring) (contents : list byte) : io unit :=
  try_catch (writeAtomic path contents) (λ err,
    if (code err =? "EPERM")%string && (syscall err =? "rename")%string then
      (* Make sure we can read & write to this file *)
      _ ← fsAccess path (Z.lor F_OK W_OK);
      (* The file was created by another context *)
      mret tt
    else throw err).

Record options := mkOptions {
  createIfMissing : bool;
  errorIfExists : bool;
  extension : jsstring
}.

Definition default_options : options :=
  {| createIfMissing := true; errorIfExists := false;
     extension := str ".data" |}.

Record FsDatastore := mkFsDatastore {
  path : jsstring;
  opts : options
}.

(** [new FsDatastore(location, opts)]; [opts] are the options after the
    defaults have been filled in, [cwd] is the working directory that
    [path.resolve] consults. *)
Definition new_FsDatastore (cwd location : jsstring) (o : options) : FsDatastore :=
  {| path := path_resolve cwd location; opts := o |}.

Definition open (this : FsDatastore) : io unit :=
  try_catch
    (found ← existsSync (path this);
     if negb found then throw (notFoundError new_Error)
     else if errorIfExists (opts this) then throw (dbOpenFailedError new_Error)
     else mret tt)
    (λ err,
      if (code err =? "ERR_NOT_FOUND")%string && createIfMissing (opts this)
      then mkdirp_sync (path this)
      else throw err).

Record encoded := mkEncoded { dir : jsstring; file : jsstring }.

Definition _encode (this : FsDatastore) (key : Key) : encoded :=
  let parent := toString (parent key) in
  let dir := path_join [path this; parent] in
  let name := slice_from (toString key) (len parent) in
  let file := path_join [dir; name ++ extension (opts this)] in
  {| dir := dir; file := file |}.

Definition _decode (this : FsDatastore) (file : jsstring) : result Key :=
  let ext := extension (opts this) in
  if decide (extname file ≠ ext) then Err new_Error
  else
    let keyname :=
      join [slash]
        (split Path.sep (slice file (len (path this)) (- len ext))) in
    Ok (Key_new keyname).

Definition putRaw (this : FsDatastore) (key : Key) (val : list byte) : io unit :=
  let parts := _encode this key in
  let file := slice (file parts) 0 (- len (extension (opts this))) in
  _ ← mkdirp (dir parts);
  writeFile file val.

Definition put (this : FsDatastore) (key : Key) (val : list byte) : io unit :=
  let parts := _encode this key in
  try_catch
    (_ ← mkdirp (dir parts);
     writeFile (file parts) val)
    (λ err, throw (dbWriteFailedError err)).

Definition getRaw (this : FsDatastore) (key : Key) : io (list byte) :=
  let parts := _encode this key in
  let file := slice (file parts) 0 (- len (extension (opts this))) in
  try_catch (fsReadFile file) (λ err, throw (notFoundError err)).

Definition get (this : FsDatastore) (key : Key) : io (list byte) :=
  let parts := _encode this key in
  try_catch (fsReadFile (file parts)) (λ err, throw (notFoundError err)).

Definition has (this : FsDatastore) (key : Key) : io bool :=
  let parts := _encode this key in
  try_catch (_ ← fsAccess (file parts) F_OK; mret true) (λ err, mret false).

Definition delete (this : FsDatastore) (key : Key) : io unit :=
  let parts := _encode this key in
  try_catch (fsUnlink (file parts)) (λ err,
    if (code err =? "ENOENT")%string then mret tt
    else throw (dbDeleteFailedError err)).

(** A query: [q.prefix] (absent or a string) and [q.keysOnly]. *)
Record query := mkQuery { prefix : option jsstring; keysOnly : bool }.

(** An entry of the enumeration: [{ key, value }], or [{ key }] alone. *)
Record entry := mkEntry { key : Key; value : option (list byte) }.

(** What a consumer of the iterator sees: the entries produced, in order,
    and the error that ended the iteration, if one did. *)
Fixpoint map_iter {A B} (f : A → result B) (l : list A) : list B * option js_error :=
  match l with
  | [] => ([], None)
  | x :: l' =>
      match f x with
      | Ok y => let '(ys, e) := map_iter f l' in (y :: ys, e)
      | Err e => ([], Some e)
      end
  end.

(** The [pattern] that [_all] hands to glob. *)
Definition _all_pattern (this : FsDatastore) (q : query) : jsstring :=
  (* glob expects a POSIX path *)
  let prefix := match prefix q with
                | Some ((_ :: _) as p) => p
                | _ => globstar
                end in
  join [slash]
    (split Path.sep
       (path_join [path this; prefix; star :: extension (opts this)])).

Definition _all (this : FsDatastore) (q : query) (w : world)
    : list entry * option js_error :=
  let pattern := _all_pattern this q in
  let files := glob_sync pattern w in
  if negb (keysOnly q) then
    map_iter (λ f,
      match fsReadFile f w with
      | (Ok buf, _) =>
          match _decode this f with
          | Ok k => Ok {| key := k; value := Some buf |}
          | Err e => Err e
          end
      | (Err e, _) => Err e
      end) files
  else
    map_iter (λ f,
      match _decode this f with
      | Ok k => Ok {| key := k; value := None |}
      | Err e => Err e
      end) files.

End Datastore.
Export Datastore.

(** ** Vocabulary of the properties *)

(** A name of the tree: not empty, and without separator. *)
Definition is_name (s : jsstring) : Prop := s ≠ [] ∧ slash ∉ s.

(** A name that [path.normalize] keeps as it is. *)
Definition clean_name (s : jsstring) : Prop :=
  is_name s ∧ s ≠ [dot] ∧ s ≠ dotdot.

(** A tree is well formed when every node but the root lies in a directory
    and has a name; [wfb] decides it. *)
Definition wf (t : fstree) : Prop :=
  ∀ p s n, t !! (p ++ [s]) = Some n → is_name s ∧ t !! p = Some Dir.

Definition wfb (t : fstree) : bool :=
  forallb (λ p, match rev p with
                | [] => true
                | s :: rp =>
                    bool_decide (is_name s) &&
                    bool_decide (t !! rev rp = Some Dir)
                end)
          (elements (dom t)).

(** A key is valid when it has been sanitized: it starts with ['/'] and has
    at least one segment, and no segment is empty, ['.'] or ['..']. *)
Definition valid_key (k : Key) : Prop :=
  head (toString k) = Some slash ∧ Forall clean_name (list_ k).

(** An extension that [path.extname] recognizes as such: a ['.'] followed by
    one or more characters other than ['.'] and ['/']. *)
Definition dot_extension (ext : jsstring) : Prop :=
  match ext with
  | c :: e => (c = dot) ∧ (e ≠ []) ∧ (dot ∉ e) ∧ (slash ∉ e)
  | [] => False
  end.



(** The error that [writeFile] takes for the race of two writers. *)
Definition rename_race (err : js_error) : bool :=
  (code err =? "EPERM")%string && (syscall err =? "rename")%string.

(** The node a path resolves to, if it resolves. *)
Definition found_of (r : lookup_result) : option node :=
  match r with Found n => Some n | Missing _ => None end.

(** What [get] and [getRaw] return for a path, from what it resolves to. *)
Definition read_outcome (o : option node) : result (list byte) :=
  match o with
  | Some (File m d) =>
      if Z.land m R_OK =? R_OK then Ok d
      else Err (mkError "ERR_NOT_FOUND" "open")
  | Some Dir => Err (mkError "ERR_NOT_FOUND" "read")
  | None => Err (mkError "ERR_NOT_FOUND" "open")
  end.

Definition is_dir (n : node) : bool :=
  match n with Dir => true | File _ _ => false end.

(** Two trees have the same shape when they hold the same paths, with a
    directory in one where there is a directory in the other; the bytes and
    the permissions of the files may differ. [same_shapeb] decides it. *)
Definition same_shape (t1 t2 : fstree) : Prop :=
  ∀ p, is_dir <$> (t1 !! p) = is_dir <$> (t2 !! p).

Definition same_shapeb (t1 t2 : fstree) : bool :=
  let agree p := bool_decide (is_dir <$> (t1 !! p) = is_dir <$> (t2 !! p)) in
  forallb agree (elements (dom t1)) && forallb agree (elements (dom t2)).

(** ** Stores and worlds to run the code on *)

Definition bytes_of (s : string) : list byte := list_byte_of_string s.

(** The world after running [m], whatever its result. *)
Definition after {A} (m : io A) (w : world) : world := snd (m w).

(** An empty disk. *)
Definition empty_world : world :=
  {| tree := {[ [] := Dir ]}; write_faults := ∅ |}.

(** The store at [/r] with the default options, and the disk once it has
    been opened. *)
Definition store : FsDatastore :=
  new_FsDatastore (str "/") (str "/r") default_options.

Definition opened : world := after (open store) empty_world.

Definition key_a : Key := Key_new (str "/a").

(** Stores with other extensions. *)
Definition tar_gz_store : FsDatastore :=
  new_FsDatastore (str "/") (str "/r")
    {| createIfMissing := true; errorIfExists := false;
       extension := str ".tar.gz" |}.

Definition dotdot_store : FsDatastore :=
  new_FsDatastore (str "/") (str "/r")
    {| createIfMissing := true; errorIfExists := false;
       extension := str "/.." |}.

(** The store holds "old" under [/a], and the environment answers the next
    rename onto that file with EPERM. *)
Definition race_world : world :=
  {| tree := tree (after (put store key_a (bytes_of "old")) opened);
     write_faults :=
       {[ [str "r"; str "a.data"] := mkError "EPERM" "rename" ]} |}.

(** As [race_world], but the file is writable and not readable. *)
Definition writeonly_world : world :=
  {| tree := <[ [str "r"; str "a.data"] := File W_OK (bytes_of "old") ]>
               (tree opened);
     write_faults :=
       {[ [str "r"; str "a.data"] := mkError "EPERM" "rename" ]} |}.

(** The store holds [/a/b], so [/r/a] is a directory. *)
Definition nested_world : world :=
  after (put store (Key_new (str "/a/b")) (bytes_of "x")) opened.

(** The store holds [/a.data/b], so [/r/a.data] is a directory. *)
Definition nested_data_world : world :=
  after (put store (Key_new (str "/a.data/b")) (bytes_of "x")) opened.

(** [putRaw] has written [/r/a], a regular file. *)
Definition raw_world : world := after (putRaw store key_a (bytes_of "x")) opened.

(** The keys [/a/1], [/a/2] and [/b/1], under two sets of values. *)
Definition values_1 : world :=
  after (put store (Key_new (str "/b/1")) (bytes_of "three"))
    (after (put store (Key_new (str "/a/2")) (bytes_of "two"))
       (after (put store (Key_new (str "/a/1")) (bytes_of "one")) opened)).

Definition values_2 : world :=
  after (put store (Key_new (str "/b/1")) [])
    (after (put store (Key_new (str "/a/2")) (bytes_of "deux"))
       (after (put store (Key_new (str "/a/1")) (bytes_of "un")) opened)).


Definition keys_only (p : option jsstring) : query :=
  {| prefix := p; keysOnly := true |}.



Definition key_a_b : Key := Key_new (str "/a/b").

Definition key_a_data_b : Key := Key_new (str "/a.data/b").


(** ** Tactics *)

Ltac io_unfold :=
  unfold try_catch, throw, mbind, io_bind, mret, io_ret in *.

Ltac not_in_literal :=
  let H := fresh in
  intros H; repeat (apply elem_of_cons in H as [H|H]; [discriminate|]);
  by apply elem_of_nil in H.

(** Proves [valid_key k] for a key given by a literal. *)
Ltac valid_key_literal :=
  split; [reflexivity|]; vm_compute;
  repeat constructor; try discriminate; not_in_literal.

(** ** Running the code on small inputs *)

Example split_empty : split slash [] = [[]].
Proof. reflexivity. Qed.

Example normalize_dots :
  path_join [str "/r"; str "/a/../b//c/."] = str "/r/b/c".
Proof. reflexivity. Qed.

Example join_keeps_trailing : path_join [str "/r"; str "/"] = str "/r/".
Proof. reflexivity. Qed.

Example extname_examples :
  extname (str "/r/a.tar.gz") = str ".gz" ∧ extname (str "/r/.data") = [] ∧
  extname (str "/r/a.") = str "." ∧ extname (str "/r/..") = [] ∧
  extname (str "/r/a.b/") = str ".b".
Proof. repeat split; reflexivity. Qed.

Example parent_examples :
  toString (parent (Key_new (str "/a/b/c"))) = str "/a/b" ∧
  toString (parent (Key_new (str "/a"))) = str "/" ∧
  toString (parent (Key_new (str "/"))) = str "/" ∧
  toString (Key_new (str "a/b//")) = str "/a/b".
Proof. repeat split; reflexivity. Qed.

Example encode_example :
  _encode store (Key_new (str "/a/b")) =
    {| dir := str "/r/a"; file := str "/r/a/b.data" |} ∧
  _encode store (Key_new (str "/a")) =
    {| dir := str "/r/"; file := str "/r/a.data" |}.
Proof. split; reflexivity. Qed.

Example put_get_example :
  let w := after (put store (Key_new (str "/a/b")) (bytes_of "hello"))
             (after (open store) empty_world) in
  fst (get store (Key_new (str "/a/b")) w) = Ok (bytes_of "hello") ∧
  fst (has store (Key_new (str "/a/b")) w) = Ok true ∧
  fst (has store (Key_new (str "/a/c")) w) = Ok false.
Proof. vm_compute. repeat split; reflexivity. Qed.


(** ** Properties *)

(** *** Splitting and joining *)

Lemma split_nonempty c s : split c s ≠ [].
Proof.
  destruct s as [|x s]; simpl; [done|].
  destruct (decide (x = c)); [done|]. by destruct (split c s).
Qed.

Lemma split_app c a b : split c (a ++ c :: b) = split c a ++ split c b.
Proof.
  induction a as [|x a IH]; simpl.
  - by rewrite decide_True.
  - destruct (decide (x = c)).
    + by rewrite IH.
    + rewrite IH. pose proof (split_nonempty c a).
      by destruct (split c a).
Qed.

Lemma split_without c s : c ∉ s → split c s = [s].
Proof.
  induction s as [|x s IH]; simpl; [done|].
  intros H. apply not_elem_of_cons in H as [Hx Hs].
  rewrite decide_False by done. by rewrite IH.
Qed.

Lemma split_pieces c s : Forall (λ seg, c ∉ seg) (split c s).
Proof.
  induction s as [|x s IH]; simpl.
  - constructor; [|done]. apply not_elem_of_nil.
  - destruct (decide (x = c)).
    + constructor; [apply not_elem_of_nil|done].
    + pose proof (split_nonempty c s). destruct (split c s) as [|seg rest]; [done|].
      inversion IH; subst. constructor; [|done].
      apply not_elem_of_cons. split; [congruence|done].
Qed.

Lemma join_split c s : join [c] (split c s) = s.
Proof.
  induction s as [|x s IH]; simpl; [done|].
  destruct (decide (x = c)) as [->|Hne].
  - pose proof (split_nonempty c s).
    destruct (split c s) as [|seg rest] eqn:E; [done|].
    simpl in *. by rewrite IH.
  - pose proof (split_nonempty c s).
    destruct (split c s) as [|seg rest] eqn:E; [done|].
    rewrite <- IH. by destruct rest.
Qed.

Lemma join_cons c x l : l ≠ [] → join [c] (x :: l) = x ++ c :: join [c] l.
Proof. by destruct l. Qed.

Lemma split_join c l :
  l ≠ [] → Forall (λ seg, c ∉ seg) l → split c (join [c] l) = l.
Proof.
  induction l as [|x l IH]; [done|]. intros _ H. inversion H; subst.
  destruct l as [|y l].
  - simpl. by apply split_without.
  - rewrite join_cons by done. rewrite split_app, IH by done.
    by rewrite split_without.
Qed.

Lemma join_snoc c l x : l ≠ [] → join [c] (l ++ [x]) = join [c] l ++ c :: x.
Proof.
  induction l as [|y l IH]; [done|]. intros _.
  destruct l as [|z l]; [done|].
  change ((y :: z :: l) ++ [x]) with (y :: ((z :: l) ++ [x])).
  rewrite !join_cons by (try done; by destruct l).
  rewrite IH by done. by rewrite <- app_assoc.
Qed.

Lemma join_snoc_app c l a e :
  join [c] (l ++ [a ++ e]) = join [c] (l ++ [a]) ++ e.
Proof.
  destruct l as [|y l]; [done|].
  rewrite !join_snoc by done. by rewrite <- !app_assoc.
Qed.

Lemma join_app c (l1 l2 : list jsstring) :
  l1 ≠ [] → l2 ≠ [] →
  join [c] (l1 ++ l2) = join [c] l1 ++ c :: join [c] l2.
Proof.
  intros H1 H2. induction l1 as [|x l1 IH]; [done|].
  destruct l1 as [|y l1].
  - simpl. by destruct l2.
  - change ((x :: y :: l1) ++ l2) with (x :: ((y :: l1) ++ l2)).
    rewrite !join_cons by done. rewrite IH by done.
    by rewrite <- app_assoc.
Qed.

Lemma join_last l x :
  x ≠ [] → ∃ y, join [slash] (l ++ [x]) = y ++ x.
Proof.
  intros Hx. destruct l as [|z l].
  - by exists [].
  - rewrite join_snoc by done. exists (join [slash] (z :: l) ++ [slash]).
    by rewrite <- app_assoc.
Qed.

(** *** Names and segments *)

Lemma clean_is_name l : Forall clean_name l → Forall is_name l.
Proof. intros H. eapply Forall_impl; [exact H|]. by intros s [Hs _]. Qed.

Lemma names_no_slash l : Forall is_name l → Forall (λ seg, slash ∉ seg) l.
Proof. intros H. eapply Forall_impl; [exact H|]. by intros s [_ Hs]. Qed.

Lemma filter_names l : Forall is_name l → filter (λ s : jsstring, s ≠ []) l = l.
Proof.
  induction 1 as [|x l [Hx _] _ IH]; [done|].
  rewrite filter_cons_True by done. by rewrite IH.
Qed.

Lemma join_nil_inv l : Forall is_name l → join [slash] l = [] → l = [].
Proof.
  intros H E. destruct H as [|x l [Hx _] _]; [done|].
  destruct l; simpl in E; [done|]. by destruct x.
Qed.

Lemma last_name (y x : jsstring) :
  is_name x → ∃ c, last (y ++ x) = Some c ∧ c ≠ slash.
Proof.
  intros [Hx Hs]. destruct x as [|a x] using rev_ind; [done|].
  exists a. rewrite app_assoc, last_snoc. split; [done|].
  intros ->. apply Hs. apply elem_of_app. right. by apply list_elem_of_singleton.
Qed.

Lemma last_join_names l x :
  is_name x → ∃ c, last (slash :: join [slash] (l ++ [x])) = Some c ∧ c ≠ slash.
Proof.
  intros Hx. destruct (join_last l x) as [y Hy]; [by destruct Hx|].
  rewrite Hy. change (slash :: y ++ x) with ((slash :: y) ++ x).
  by apply last_name.
Qed.

Lemma head_join_names x l :
  is_name x → head (join [slash] (x :: l)) ≠ Some slash.
Proof.
  intros [Hx Hs]. destruct x as [|a x]; [done|].
  assert (a ≠ slash).
  { intros ->. apply Hs. by left. }
  destruct l; simpl; congruence.
Qed.


Lemma segments_app a b : segments (a ++ slash :: b) = segments a ++ segments b.
Proof. unfold segments. by rewrite split_app, filter_app. Qed.

Lemma segments_nil : segments [] = [].
Proof. reflexivity. Qed.

Lemma segments_join l : Forall is_name l → segments (join [slash] l) = l.
Proof.
  intros H. destruct l as [|x l]; [done|]. unfold segments.
  rewrite split_join by (try done; by apply names_no_slash).
  by apply filter_names.
Qed.

Lemma segments_path_of l : Forall is_name l → segments (path_of l) = l.
Proof.
  intros H. unfold path_of. change (slash :: join [slash] l) with ([] ++ slash :: join [slash] l).
  rewrite segments_app. simpl. by apply segments_join.
Qed.

Lemma segments_trailing l :
  Forall is_name l → segments (path_of l ++ [slash]) = l.
Proof.
  intros H. rewrite segments_app, segments_path_of by done.
  simpl. by rewrite app_nil_r.
Qed.

Lemma segments_name s : is_name s → segments s = [s].
Proof.
  intros [H1 H2]. unfold segments. rewrite split_without by done.
  by rewrite filter_cons_True, filter_nil.
Qed.

(** *** Slices *)

Lemma slice_from_drop (s : jsstring) (n : nat) :
  slice_from s (Z.of_nat n) = drop n s.
Proof.
  unfold slice_from, slice, clamp, len.
  destruct (Z.ltb_spec (Z.of_nat n) 0); [lia|].
  destruct (Z.ltb_spec (Z.of_nat (length s)) 0); [lia|].
  destruct (decide (n ≤ length s)%nat).
  - replace (Z.to_nat (Z.of_nat n `min` Z.of_nat (length s))) with n by lia.
    apply take_ge. rewrite length_drop. lia.
  - replace (Z.to_nat (Z.of_nat n `min` Z.of_nat (length s)))
      with (length s) by lia.
    rewrite !drop_ge by lia. by rewrite take_nil.
Qed.

Lemma slice_strip (pre mid suf : jsstring) :
  suf ≠ [] →
  slice (pre ++ mid ++ suf) (len pre) (- len suf) = mid.
Proof.
  intros Hs. unfold slice, clamp, len. rewrite !length_app.
  assert (0 < length suf)%nat by (destruct suf; [done|simpl; lia]).
  destruct (Z.ltb_spec (Z.of_nat (length pre)) 0); [lia|].
  destruct (Z.ltb_spec (- Z.of_nat (length suf)) 0); [|lia].
  replace (Z.to_nat (Z.of_nat (length pre) `min`
             Z.of_nat (length pre + (length mid + length suf))))
    with (length pre) by lia.
  rewrite drop_app_length.
  match goal with |- take ?n _ = _ => replace n with (length mid) by lia end.
  by rewrite take_app_length.
Qed.

(** *** Normalizing a path whose segments are clean *)

Lemma normalizeSegs_filter b acc l :
  normalizeSegs b acc l = normalizeSegs b acc (filter (λ s : jsstring, s ≠ []) l).
Proof.
  revert acc. induction l as [|s l IH]; intros acc; [done|].
  destruct (decide (s = [])) as [->|Hs].
  - rewrite filter_cons_False by (intros H; by apply H). simpl. apply IH.
  - rewrite filter_cons_True by done. simpl.
    destruct (decide (s = [])); [done|].
    destruct (decide (s = [dot])); [apply IH|].
    destruct (decide (s = dotdot)); [|apply IH].
    destruct acc as [|top acc]; [destruct b; apply IH|].
    destruct (decide (top = dotdot)); [destruct b|]; apply IH.
Qed.

Lemma normalizeSegs_clean b acc l :
  Forall clean_name l → normalizeSegs b acc l = rev acc ++ l.
Proof.
  intros H. revert acc. induction H as [|s l [[Hs _] [Hd Hdd]] _ IH]; intros acc; simpl.
  - by rewrite app_nil_r.
  - rewrite !decide_False by done. rewrite IH. simpl.
    by rewrite <- app_assoc.
Qed.

Lemma normalizeString_clean p b :
  Forall clean_name (segments p) →
  normalizeString p b = join [slash] (segments p).
Proof.
  intros H. unfold normalizeString. rewrite normalizeSegs_filter.
  fold (segments p). by rewrite normalizeSegs_clean.
Qed.

Lemma normalize_abs_clean p :
  Forall clean_name (segments (slash :: p)) →
  normalize (slash :: p) =
    match segments (slash :: p) with
    | [] => [slash]
    | l => path_of l ++ (if trailingSeparator (slash :: p) then [slash] else [])
    end.
Proof.
  intros H. unfold normalize.
  change (isAbsolute (slash :: p)) with true. cbn [negb].
  rewrite normalizeString_clean by done.
  destruct (segments (slash :: p)) as [|x l] eqn:E; [done|].
  destruct (join [slash] (x :: l)) as [|y q] eqn:Ej.
  - apply join_nil_inv in Ej; [done|]. by apply clean_is_name.
  - unfold path_of. by rewrite Ej.
Qed.

Lemma normalizeSegs_output l acc :
  Forall (λ seg, slash ∉ seg) l → Forall clean_name acc →
  Forall clean_name (normalizeSegs false acc l).
Proof.
  intros H. revert acc. induction H as [|s l Hs _ IH]; intros acc Hacc; simpl.
  - by apply Forall_rev.
  - destruct (decide (s = [])); [by apply IH|].
    destruct (decide (s = [dot])); [by apply IH|].
    destruct (decide (s = dotdot)).
    + destruct acc as [|top acc]; [by apply IH|].
      inversion Hacc; subst.
      destruct (decide (top = dotdot)); by apply IH.
    + apply IH. constructor; [|done]. done.
Qed.

Lemma trailing_app (x e : jsstring) :
  e ≠ [] → slash ∉ e → trailingSeparator (x ++ e) = false.
Proof.
  intros He Hs. destruct (last_name x e) as (c & Hl & Hc); [done|].
  unfold trailingSeparator. rewrite Hl. apply bool_decide_eq_false_2.
  congruence.
Qed.

Lemma normalize_abs_segments p :
  Forall clean_name (segments (slash :: p)) →
  head (normalize (slash :: p)) = Some slash ∧
  segments (normalize (slash :: p)) = segments (slash :: p) ∧
  (trailingSeparator (slash :: p) = false → segments (slash :: p) ≠ [] →
   normalize (slash :: p) = path_of (segments (slash :: p))).
Proof.
  intros H. rewrite normalize_abs_clean by done.
  destruct (segments (slash :: p)) as [|x l] eqn:E; [done|].
  split; [done|]. split.
  - destruct (trailingSeparator _).
    + apply segments_trailing. by apply clean_is_name.
    + rewrite app_nil_r. apply segments_path_of. by apply clean_is_name.
  - intros -> _. by rewrite app_nil_r.
Qed.

Lemma path_join2 (a b : jsstring) :
  a ≠ [] → b ≠ [] → path_join [a; b] = normalize (a ++ slash :: b).
Proof.
  intros Ha Hb. unfold path_join.
  rewrite filter_cons_True by done. rewrite filter_cons_True by done.
  by rewrite filter_nil.
Qed.


(** *** Keys *)

Lemma valid_key_form k :
  valid_key k →
  ∃ ps leaf, toString k = path_of (ps ++ [leaf]) ∧ list_ k = ps ++ [leaf] ∧
             Forall clean_name (ps ++ [leaf]).
Proof.
  intros [Hh Hc]. unfold list_ in *.
  destruct (toString k) as [|c s] eqn:E; [done|]. injection Hh as ->.
  assert (Hsp : split slash (slash :: s) = [] :: split slash s) by done.
  rewrite Hsp in *. cbn [tail] in *.
  destruct (exists_last (split_nonempty slash s)) as (ps & leaf & Hs).
  exists ps, leaf. rewrite <- Hs. split; [|by split].
  unfold path_of. by rewrite join_split.
Qed.

Lemma pop_slashes_fixed (s : jsstring) c :
  last s = Some c → c ≠ slash → pop_slashes (rev s) = rev s.
Proof.
  intros Hl Hc. destruct s as [|x s] using rev_ind; [done|].
  rewrite last_snoc in Hl. injection Hl as ->. rewrite rev_unit. simpl.
  destruct (rev s); [done|]. by rewrite decide_False.
Qed.

Lemma clean_fixed (s : jsstring) c :
  last (slash :: s) = Some c → c ≠ slash → clean (slash :: s) = slash :: s.
Proof.
  intros Hl Hc. unfold clean. rewrite bool_decide_eq_true_2 by done.
  rewrite (pop_slashes_fixed _ c) by done. apply rev_involutive.
Qed.

Lemma clean_prepend (s : jsstring) c :
  s ≠ [] → head s ≠ Some slash → last s = Some c → c ≠ slash →
  clean s = slash :: s.
Proof.
  intros Hs Hh Hl Hc. unfold clean. destruct s as [|x s]; [done|].
  rewrite bool_decide_eq_false_2 by done.
  rewrite (pop_slashes_fixed _ c); [apply rev_involutive| |done].
  by rewrite last_cons, Hl.
Qed.

Lemma clean_path_of l :
  Forall is_name l → clean (path_of l) = path_of l.
Proof.
  intros H. destruct l as [|x l] using rev_ind; [done|].
  apply Forall_app in H as [_ Hx]. inversion Hx; subst.
  destruct (last_join_names l x) as (c & Hl & Hc); [done|].
  by apply (clean_fixed _ c).
Qed.

Lemma clean_join l :
  l ≠ [] → Forall is_name l → clean (join [slash] l) = path_of l.
Proof.
  intros Hne H. destruct l as [|x l] using rev_ind; [done|].
  pose proof H as H'. apply Forall_app in H' as [_ Hx]. inversion Hx; subst.
  destruct (join_last l x) as [y Hy]; [by destruct H2|].
  destruct (last_name y x) as (c & Hl & Hc); [done|].
  apply (clean_prepend _ c).
  - rewrite Hy. destruct H2 as [Hx' _]. by destruct y, x.
  - destruct l as [|z l]; simpl.
    + apply (head_join_names x []). done.
    + apply Forall_app in H as [H _]. inversion H; subst.
      change ((z :: l) ++ [x]) with (z :: (l ++ [x])).
      by apply head_join_names.
  - by rewrite Hy.
  - done.
Qed.

Lemma parent_valid k ps leaf :
  list_ k = ps ++ [leaf] → Forall is_name ps →
  toString (parent k) = path_of ps.
Proof.
  intros Hl Hps. unfold parent. rewrite Hl, length_app. simpl.
  destruct ps as [|p ps].
  - reflexivity.
  - rewrite bool_decide_eq_false_2 by (simpl; lia).
    rewrite removelast_last. unfold Key_new, toString. cbn [_buf].
    by apply clean_join.
Qed.


Lemma valid_key_a : valid_key key_a.
Proof.
  split; [reflexivity|]. vm_compute.
  repeat constructor; try discriminate; not_in_literal.
Defined.

Lemma valid_key_a_b : valid_key (Key_new (str "/a/b")).
Proof.
  split; [reflexivity|]. vm_compute.
  repeat constructor; try discriminate;
    intros H; repeat (apply elem_of_cons in H as [H|H]; [discriminate|]);
    by apply elem_of_nil in H.
Defined.

(** *** The path codec *)

(** The root of a datastore is the path of clean segments. *)
Lemma root_form cwd location o :
  ∃ rs, path (new_FsDatastore cwd location o) = path_of rs ∧
        Forall clean_name rs.
Proof.
  eexists. split; [reflexivity|].
  apply normalizeSegs_output; [apply split_pieces|constructor].
Qed.

Lemma clean_name_ext (leaf ext : jsstring) :
  clean_name leaf → ext ≠ [] → slash ∉ ext → clean_name (leaf ++ ext).
Proof.
  intros [[Hl Hs] [Hd Hdd]] He Hse. repeat split.
  - by destruct leaf.
  - by apply not_elem_of_app.
  - intros H. apply (f_equal length) in H. rewrite length_app in H.
    destruct leaf, ext; simpl in *; try done; lia.
  - unfold dotdot in *. intros H.
    destruct leaf as [|a [|b leaf]]; [done| |].
    + injection H as -> _. by apply Hd.
    + apply (f_equal length) in H. rewrite length_app in H.
      destruct ext; simpl in *; try done; lia.
Qed.

Lemma name_form ps leaf :
  drop (length (path_of ps)) (path_of (ps ++ [leaf])) =
    match ps with [] => leaf | _ => slash :: leaf end.
Proof.
  destruct ps as [|p ps]; [done|]. unfold path_of.
  rewrite join_snoc by done.
  change (slash :: join [slash] (p :: ps) ++ slash :: leaf)
    with ((slash :: join [slash] (p :: ps)) ++ slash :: leaf).
  by rewrite drop_app_length.
Qed.

Lemma path_of_head l : head (path_of l) = Some slash.
Proof. reflexivity. Qed.

Lemma path_of_nonempty l : path_of l ≠ [].
Proof. done. Qed.


Lemma path_of_snoc_ext l leaf ext :
  path_of (l ++ [leaf ++ ext]) = path_of (l ++ [leaf]) ++ ext.
Proof. unfold path_of. by rewrite join_snoc_app. Qed.

Lemma path_of_plain l x :
  is_name x → trailingSeparator (path_of (l ++ [x])) = false.
Proof.
  intros Hx. destruct (last_join_names l x Hx) as (c & Hl & Hc).
  unfold trailingSeparator, path_of. rewrite Hl.
  apply bool_decide_eq_false_2. congruence.
Qed.

(** The encoding of a valid key: its directory is the root followed by the
    segments of the key's parent, its file the leaf with the extension in
    that directory. *)
Lemma encode_valid (this : FsDatastore) rs (k : Key) ps leaf :
  path this = path_of rs → Forall clean_name rs →
  toString k = path_of (ps ++ [leaf]) → list_ k = ps ++ [leaf] →
  Forall clean_name (ps ++ [leaf]) →
  extension (opts this) ≠ [] → slash ∉ extension (opts this) →
  segments (dir (_encode this k)) = rs ++ ps ∧
  head (dir (_encode this k)) = Some slash ∧
  file (_encode this k) = path_of (rs ++ ps ++ [leaf ++ extension (opts this)]).
Proof.
  intros Hroot Hrs Hk Hl Hks Hext Hslash.
  pose proof Hks as Hks'. apply Forall_app in Hks' as [Hps Hleaf].
  inversion Hleaf as [|? ? Hleaf' _]; subst.
  unfold _encode. cbn [dir file].
  rewrite (parent_valid k ps leaf) by (try done; by apply clean_is_name).
  rewrite Hroot, Hk. unfold len.
  rewrite slice_from_drop, name_form.
  rewrite path_join2 by done.
  assert (Hsegs : segments (path_of rs ++ slash :: path_of ps) = rs ++ ps).
  { rewrite segments_app, !segments_path_of by (by apply clean_is_name). done. }
  destruct (normalize_abs_segments (join [slash] rs ++ slash :: path_of ps))
    as (Hh & Hs & _).
  { change (slash :: join [slash] rs ++ slash :: path_of ps)
      with (path_of rs ++ slash :: path_of ps).
    rewrite Hsegs. apply Forall_app. by split. }
  change (slash :: join [slash] rs ++ slash :: path_of ps)
    with (path_of rs ++ slash :: path_of ps) in *.
  set (d := normalize (path_of rs ++ slash :: path_of ps)) in *.
  rewrite Hsegs in Hs. split; [done|]. split; [done|].
  set (ext := extension (opts this)) in *.
  set (name := match ps with [] => leaf | _ => slash :: leaf end).
  assert (Hname : segments (name ++ ext) = [leaf ++ ext]).
  { pose proof (clean_name_ext leaf ext Hleaf' Hext Hslash) as [Hn _].
    subst name. destruct ps.
    - by apply segments_name.
    - change ((slash :: leaf) ++ ext) with ([] ++ slash :: (leaf ++ ext)).
      rewrite segments_app. simpl. by apply segments_name. }
  assert (Hd : d ≠ []) by (by destruct d).
  assert (Hn : name ++ ext ≠ []) by (destruct name, ext; done).
  rewrite path_join2 by done.
  destruct d as [|c d']; [done|]. injection Hh as ->.
  destruct (normalize_abs_segments (d' ++ slash :: name ++ ext))
    as (_ & _ & Hfile).
  { change (slash :: d' ++ slash :: name ++ ext)
      with ((slash :: d') ++ slash :: (name ++ ext)).
    rewrite segments_app, Hs, Hname. rewrite <- app_assoc.
    apply Forall_app. split; [done|]. apply Forall_app. split; [done|].
    constructor; [|done]. by apply clean_name_ext. }
  change (slash :: d' ++ slash :: name ++ ext)
    with ((slash :: d') ++ slash :: (name ++ ext)) in *.
  rewrite Hfile.
  - by rewrite segments_app, Hs, Hname, <- app_assoc.
  - replace ((slash :: d') ++ slash :: name ++ ext)
      with (((slash :: d') ++ slash :: name) ++ ext)
      by (by rewrite <- app_assoc).
    by apply trailing_app.
  - rewrite segments_app, Hs, Hname. by destruct (rs ++ ps).
Qed.

Lemma raw_path l leaf ext :
  ext ≠ [] →
  slice (path_of (l ++ [leaf ++ ext])) 0 (- len ext) = path_of (l ++ [leaf]).
Proof.
  intros He. rewrite path_of_snoc_ext.
  change (path_of (l ++ [leaf]) ++ ext)
    with ([] ++ path_of (l ++ [leaf]) ++ ext).
  change 0 with (len []). by apply slice_strip.
Qed.

Lemma strip_trailing_fixed (s : jsstring) c :
  last s = Some c → c ≠ slash → strip_trailing s = s.
Proof.
  intros Hl Hc. induction s as [|a s IH]; [done|].
  destruct s as [|b s].
  - simpl in *. injection Hl as ->. by rewrite decide_False.
  - rewrite last_cons_cons in Hl. specialize (IH Hl).
    change (strip_trailing (a :: b :: s)) with
      (match strip_trailing (b :: s) with
       | [] => if decide (a = slash) then [] else [a]
       | r => a :: r
       end).
    by rewrite IH.
Qed.

Lemma last_snoc_list {A} (l : list A) x d : List.last (l ++ [x]) d = x.
Proof. apply List.last_last. Qed.

Lemma basename_path_of l x :
  Forall is_name l → is_name x → basename (path_of (l ++ [x])) = x.
Proof.
  intros Hl Hx. unfold basename.
  destruct (last_join_names l x) as (c & Hc & Hne); [done|].
  rewrite (strip_trailing_fixed _ c) by done. unfold path_of.
  change (slash :: join [slash] (l ++ [x]))
    with ([] ++ slash :: join [slash] (l ++ [x])).
  rewrite split_app, split_join.
  - change (split slash [] ++ l ++ [x]) with (([] :: l) ++ [x]).
    apply last_snoc_list.
  - by destruct l.
  - apply names_no_slash. apply Forall_app. split; [done|]. by constructor.
Qed.

Lemma lastDot_none (e : jsstring) : dot ∉ e → lastDot e = None.
Proof.
  induction e as [|c e IH]; [done|]. intros H.
  apply not_elem_of_cons in H as [Hc He]. simpl. rewrite IH by done.
  by rewrite decide_False.
Qed.

Lemma lastDot_app (a e : jsstring) :
  dot ∉ e → lastDot (a ++ dot :: e) = Some (length a).
Proof.
  intros He. induction a as [|x a IH]; simpl.
  - by rewrite lastDot_none.
  - by rewrite IH.
Qed.

Lemma dot_extension_suffix ext : dot_extension ext → ext ≠ [] ∧ slash ∉ ext.
Proof.
  destruct ext as [|c e]; [done|]. intros (-> & _ & _ & Hs). split; [done|].
  apply not_elem_of_cons. split; [done|done].
Qed.

Lemma extname_path_of l leaf ext :
  Forall is_name l → is_name leaf → dot_extension ext →
  extname (path_of (l ++ [leaf ++ ext])) = ext.
Proof.
  intros Hl Hleaf Hext.
  destruct (dot_extension_suffix ext Hext) as [Hne Hs].
  destruct ext as [|c e]; [done|]. destruct Hext as (-> & He & Hd & Hse).
  unfold extname. rewrite basename_path_of; [|done|].
  - rewrite lastDot_app by done. destruct Hleaf as [Hn _].
    destruct leaf as [|a leaf]; [done|]. cbn [length].
    rewrite decide_False.
    + change (S (length leaf)) with (length (a :: leaf)).
      by rewrite drop_app_length.
    + unfold dotdot. intros H. apply (f_equal length) in H.
      rewrite length_app in H. destruct e; simpl in *; [done|lia].
  - destruct Hleaf as [Hn Hsl]. split; [by destruct leaf|].
    by apply not_elem_of_app.
Qed.

(** Decoding the file of a key gives the key back. *)
Lemma decode_file (this : FsDatastore) rs qs leaf :
  path this = path_of rs → Forall is_name rs →
  Forall is_name (qs ++ [leaf]) →
  dot_extension (extension (opts this)) →
  _decode this (path_of (rs ++ qs ++ [leaf ++ extension (opts this)])) =
    Ok (mkKey (path_of (qs ++ [leaf]))).
Proof.
  intros Hroot Hrs Hks Hext.
  destruct (dot_extension_suffix _ Hext) as [Hne Hs].
  pose proof Hks as Hks'. apply Forall_app in Hks' as [Hqs Hleaf].
  inversion Hleaf; subst.
  unfold _decode. rewrite app_assoc.
  rewrite extname_path_of; [|by apply Forall_app|done|done].
  rewrite decide_False by (intros H; by apply H).
  f_equal. unfold Key_new. f_equal. rewrite join_split, Hroot.
  rewrite <- app_assoc.
  set (ext := extension (opts this)) in *.
  destruct rs as [|r rs].
  - simpl app. unfold path_of at 1 2. rewrite join_snoc_app.
    change (slash :: join [slash] (qs ++ [leaf]) ++ ext)
      with ([slash] ++ join [slash] (qs ++ [leaf]) ++ ext).
    change (slash :: join [slash] []) with [slash].
    rewrite slice_strip by done.
    apply clean_join; [by destruct qs|done].
  - unfold path_of at 1 2. rewrite join_app by (try done; by destruct qs).
    rewrite join_snoc_app.
    replace (slash :: join [slash] (r :: rs) ++
               slash :: join [slash] (qs ++ [leaf]) ++ ext)
      with ((slash :: join [slash] (r :: rs)) ++
              path_of (qs ++ [leaf]) ++ ext) by done.
    rewrite slice_strip by done.
    by apply clean_path_of.
Qed.

(** C2, as amended: for every sanitized key (at least one segment, none of
    them empty, ['.'] or ['..']) and a configured extension made of a ['.']
    followed by one or more characters other than ['.'] and ['/'], decoding
    the file path that encoding produced yields the key again. *)
Theorem decode_encode (cwd location : jsstring) (o : options) (k : Key) :
  let this := new_FsDatastore cwd location o in
  dot_extension (extension o) → valid_key k →
  _decode this (file (_encode this k)) = Ok k.
Proof.
  intros this Hext Hk.
  destruct (root_form cwd location o) as (rs & Hroot & Hrs).
  fold this in Hroot.
  assert (Ho : extension (opts this) = extension o) by done.
  clearbody this.
  destruct (valid_key_form k Hk) as (ps & leaf & Hstr & Hl & Hks).
  destruct (dot_extension_suffix _ Hext) as [Hne Hs].
  destruct (encode_valid this rs k ps leaf) as (_ & _ & Hfile);
    try done; try (by rewrite Ho).
  rewrite Hfile. rewrite decode_file; try done.
  - destruct k as [buf]. simpl in Hstr. by rewrite Hstr.
  - by apply clean_is_name.
  - by apply clean_is_name.
  - by rewrite Ho.
Qed.

(** C2, counterexamples: the root key is encoded as [/r/.data], whose
    extension [path.extname] reports as empty; with the extension [.tar.gz]
    the extension of every file is reported as [.gz]; in both cases
    [_decode] throws on the path [_encode] produced. And [path.join]
    normalizes ['..'], ['.'] and empty segments of a key away, so another key
    comes back. *)
Lemma decode_encode_fails :
  file (_encode store (Key_new (str "/"))) = str "/r/.data" ∧
  _decode store (file (_encode store (Key_new (str "/")))) = Err new_Error ∧
  file (_encode tar_gz_store key_a) = str "/r/a.tar.gz" ∧
  _decode tar_gz_store (file (_encode tar_gz_store key_a)) = Err new_Error ∧
  _decode store (file (_encode store (Key_new (str "/a/../b")))) =
    Ok (Key_new (str "/b")) ∧
  _decode store (file (_encode store (Key_new (str "/a//b")))) =
    Ok (Key_new (str "/a/b")) ∧
  _decode store (file (_encode store (Key_new (str "/a/./b")))) =
    Ok (Key_new (str "/a/b")) ∧
  Key_new (str "/b") ≠ Key_new (str "/a/../b") ∧
  Key_new (str "/a/b") ≠ Key_new (str "/a//b") ∧
  Key_new (str "/a/b") ≠ Key_new (str "/a/./b").
Proof.
  repeat split; try (vm_compute; reflexivity); vm_compute; discriminate.
Qed.

Lemma decode_encode_witness :
  dot_extension (extension default_options) ∧
  valid_key (Key_new (str "/a/b")) ∧
  _decode store (file (_encode store (Key_new (str "/a/b")))) =
    Ok (Key_new (str "/a/b")).
Proof.
  assert (H1 : dot_extension (extension default_options)).
  { vm_compute. repeat split; try discriminate; not_in_literal. }
  split; [exact H1|]. split; [exact valid_key_a_b|].
  exact (decode_encode (str "/") (str "/r") default_options _ H1 valid_key_a_b).
Defined.

(** *** Path resolution *)

Lemma take_snoc_step {A} (pre : list A) s i rest :
  (pre ++ [s]) ++ take i rest = pre ++ take (S i) (s :: rest).
Proof. by rewrite <- app_assoc. Qed.

(** [walk] reads the tree at the prefixes of the path only. *)
Lemma walk_ext (t t' : fstree) pre rest :
  (∀ i, (i ≤ length rest)%nat →
        t' !! (pre ++ take i rest) = t !! (pre ++ take i rest)) →
  walk t' pre rest = walk t pre rest.
Proof.
  revert pre. induction rest as [|s rest IH]; intros pre H; simpl.
  - specialize (H 0%nat). simpl in H. rewrite app_nil_r in H.
    rewrite H by lia. reflexivity.
  - pose proof (H 0%nat) as H0. simpl in H0. rewrite app_nil_r in H0.
    rewrite H0 by lia. destruct (t !! pre) as [[m d|]|]; try reflexivity.
    apply IH. intros i Hi. rewrite take_snoc_step. apply H. simpl. lia.
Qed.

Lemma walk_found (t : fstree) pre rest n :
  walk t pre rest = Found n ↔
  (∀ i, (i < length rest)%nat → t !! (pre ++ take i rest) = Some Dir) ∧
  t !! (pre ++ rest) = Some n.
Proof.
  revert pre. induction rest as [|s rest IH]; intros pre; simpl.
  - rewrite app_nil_r. split.
    + destruct (t !! pre); [|discriminate]. intros [= ->]. split; [|done].
      intros i Hi. lia.
    + intros [_ ->]. reflexivity.
  - split.
    + destruct (t !! pre) as [[m d|]|] eqn:E; try discriminate.
      intros Hw. apply IH in Hw as [Hd Hn]. split.
      * intros [|i] Hi.
        { simpl. by rewrite app_nil_r. }
        rewrite <- take_snoc_step. apply Hd. simpl in Hi. lia.
      * by rewrite <- app_assoc in Hn.
    + intros [Hd Hn]. pose proof (Hd 0%nat) as H0. simpl in H0.
      rewrite app_nil_r in H0. rewrite H0 by lia. apply IH. split.
      * intros i Hi. rewrite take_snoc_step. apply Hd. lia.
      * by rewrite <- app_assoc.
Qed.


Lemma walk_missing (t : fstree) pre rest c :
  walk t pre rest = Missing c →
  ∃ i, (i ≤ length rest)%nat ∧
       (t !! (pre ++ take i rest) = None ∨
        ∃ m d, t !! (pre ++ take i rest) = Some (File m d)).
Proof.
  revert pre. induction rest as [|s rest IH]; intros pre; simpl.
  - destruct (t !! pre) eqn:E; [done|]. intros _. exists 0%nat.
    simpl. rewrite app_nil_r. split; [lia|]. by left.
  - destruct (t !! pre) as [[m d|]|] eqn:E.
    + intros _. exists 0%nat. simpl. rewrite app_nil_r. split; [lia|].
      right. eauto.
    + intros Hw. apply IH in Hw as (i & Hi & H). exists (S i).
      rewrite <- take_snoc_step. split; [simpl; lia|done].
    + intros _. exists 0%nat. simpl. rewrite app_nil_r. split; [lia|].
      by left.
Qed.

Lemma walk_delete_target (t : fstree) pre rest m d :
  walk t pre rest = Found (File m d) →
  walk (base.delete (pre ++ rest) t) pre rest = Missing "ENOENT".
Proof.
  revert pre. induction rest as [|s rest IH]; intros pre; simpl.
  - rewrite app_nil_r. by rewrite lookup_delete_eq.
  - destruct (t !! pre) as [[m' d'|]|] eqn:E; try discriminate.
    intros Hw. rewrite lookup_delete_ne.
    + rewrite E. specialize (IH (pre ++ [s]) Hw).
      by rewrite <- app_assoc in IH.
    + intros Heq. apply (f_equal length) in Heq.
      rewrite length_app in Heq. simpl in Heq. lia.
Qed.

Lemma walk_insert_last (t : fstree) l a n :
  walk t [] l = Found Dir →
  walk (<[l ++ [a] := n]> t) [] (l ++ [a]) = Found n.
Proof.
  intros Hw. apply walk_found in Hw as [Hd Hl]. apply walk_found. split.
  - intros i Hi. rewrite length_app in Hi. simpl in *.
    rewrite lookup_insert_ne.
    + destruct (decide (i = length l)) as [->|Hne].
      * by rewrite take_app_length.
      * rewrite take_app_le by lia. apply Hd. lia.
    + intros Heq. apply (f_equal length) in Heq.
      rewrite length_take, length_app in Heq. simpl in Heq. lia.
  - simpl. apply lookup_insert_eq.
Qed.

Lemma lookup_path_plain (p : jsstring) (t : fstree) :
  p ≠ [] → trailingSeparator p = false →
  lookup_path p t = walk t [] (segments p).
Proof.
  intros Hp Ht. unfold lookup_path. destruct p as [|c p]; [done|].
  rewrite Ht. by destruct (walk t [] _) as [[]|].
Qed.

Lemma tree_with_tree w t : tree (with_tree w t) = t.
Proof. reflexivity. Qed.

Lemma faults_with_tree w t : write_faults (with_tree w t) = write_faults w.
Proof. reflexivity. Qed.

(** *** Well-formed trees *)

Lemma wfb_wf t : wfb t = true → wf t.
Proof.
  unfold wfb. rewrite forallb_forall. intros H p s n Hl.
  assert (Hin : In (p ++ [s]) (elements (dom t))).
  { apply list_elem_of_In, elem_of_elements, elem_of_dom. eauto. }
  specialize (H _ Hin). rewrite rev_app_distr in H. simpl in H.
  apply andb_prop in H as [H1 H2].
  apply bool_decide_eq_true in H1, H2. by rewrite rev_involutive in H2.
Qed.

(** Below a missing node of a well-formed tree there is nothing. *)
Lemma wf_missing_below t p q : wf t → t !! p = None → t !! (p ++ q) = None.
Proof.
  intros Hwf Hp. induction q as [|s q IH] using rev_ind.
  - by rewrite app_nil_r.
  - destruct (t !! (p ++ q ++ [s])) as [n|] eqn:E; [|done].
    rewrite app_assoc in E. apply Hwf in E as [_ E]. congruence.
Qed.


(** *** [mkdirp] *)

Lemma mkdirp_walk_spec (t : fstree) pre rest :
  (∀ i m d, (i ≤ length rest)%nat →
            t !! (pre ++ take i rest) ≠ Some (File m d)) →
  ∃ t', mkdirp_walk t pre rest = inr t' ∧
        (∀ i, (i ≤ length rest)%nat → t' !! (pre ++ take i rest) = Some Dir) ∧
        (∀ p, (∀ i, (i ≤ length rest)%nat → p ≠ pre ++ take i rest) →
              t' !! p = t !! p) ∧
        (∀ p n, t !! p = Some n → t' !! p = Some n).
Proof.
  revert t pre. induction rest as [|s rest IH]; intros t pre H.
  - pose proof (H 0%nat) as H0. simpl in H0. rewrite app_nil_r in H0.
    simpl. destruct (t !! pre) as [[m d|]|] eqn:E.
    + exfalso. eapply H0; [lia|done].
    + exists t. split; [done|]. split; [|done].
      intros i Hi. rewrite take_nil, app_nil_r. done.
    + exists (<[pre := Dir]> t). split; [done|]. split; [|split].
      * intros i Hi. rewrite take_nil, app_nil_r. apply lookup_insert_eq.
      * intros p Hp. apply lookup_insert_ne. intros ->.
        apply (Hp 0%nat); [simpl; lia|]. by rewrite app_nil_r.
      * intros p n Hn. rewrite lookup_insert_ne; [done|]. congruence.
  - pose proof (H 0%nat) as H0. simpl in H0. rewrite app_nil_r in H0.
    simpl.
    set (t1 := match t !! pre with None => <[pre := Dir]> t | Some _ => t end).
    assert (Ht1 : t1 !! pre = Some Dir ∧
                  (∀ p, p ≠ pre → t1 !! p = t !! p) ∧
                  (∀ p n, t !! p = Some n → t1 !! p = Some n)).
    { subst t1. destruct (t !! pre) as [[m d|]|] eqn:E.
      - exfalso. eapply H0; [lia|done].
      - done.
      - split; [apply lookup_insert_eq|]. split.
        + intros p Hp. by apply lookup_insert_ne.
        + intros p n Hn. rewrite lookup_insert_ne; [done|]. congruence. }
    destruct Ht1 as (Hpre & Hother & Hmono).
    assert (Hne : ∀ i, pre ++ [s] ++ take i rest ≠ pre).
    { intros i Heq. apply (f_equal length) in Heq.
      rewrite !length_app in Heq. simpl in Heq. lia. }
    destruct (IH t1 (pre ++ [s])) as (t' & Hrun & Hdirs & Hframe & Hmono').
    { intros i m d Hi. rewrite take_snoc_step.
      rewrite Hother by (simpl; apply Hne). apply H. simpl. lia. }
    exists t'. split.
    { destruct (t !! pre) as [[m d|]|] eqn:E; try exact Hrun.
      exfalso. eapply H0; [lia|done]. }
    split; [|split].
    + intros [|i] Hi.
      * simpl. rewrite app_nil_r. by apply Hmono'.
      * rewrite <- take_snoc_step. apply Hdirs. simpl in Hi. lia.
    + intros p Hp. rewrite Hframe.
      * apply Hother. intros ->. apply (Hp 0%nat); [simpl; lia|].
        by rewrite app_nil_r.
      * intros i Hi. rewrite take_snoc_step. apply Hp. simpl. lia.
    + intros p n Hn. by apply Hmono', Hmono.
Qed.

Lemma mkdirp_walk_inv (t t' : fstree) pre rest :
  mkdirp_walk t pre rest = inr t' →
  ∀ i m d, (i ≤ length rest)%nat → t !! (pre ++ take i rest) ≠ Some (File m d).
Proof.
  revert t pre. induction rest as [|s rest IH]; intros t pre Hrun i m d Hi.
  - simpl in Hi. rewrite take_nil, app_nil_r. simpl in Hrun.
    destruct (t !! pre) as [[]|]; done.
  - simpl in Hrun. destruct i as [|i].
    + simpl. rewrite app_nil_r. destruct (t !! pre) as [[]|]; done.
    + rewrite <- take_snoc_step.
      assert (Hne : (pre ++ [s]) ++ take i rest ≠ pre).
      { intros Heq. apply (f_equal length) in Heq.
        rewrite !length_app in Heq. simpl in Heq. lia. }
      destruct (t !! pre) as [[m' d'|]|] eqn:E; [done| |].
      * eapply IH; [exact Hrun|]. simpl in Hi. lia.
      * intros Hf. eapply (IH _ _ Hrun i m d); [simpl in Hi; lia|].
        by rewrite lookup_insert_ne.
Qed.


Lemma mkdirp_faults (p : jsstring) (w w' : world) r :
  mkdirp p w = (r, w') → write_faults w' = write_faults w.
Proof.
  unfold mkdirp. destruct p; [by intros [= _ <-]|].
  destruct (mkdirp_walk _ _ _); by intros [= _ <-].
Qed.

Lemma mkdirp_frame (t t' : fstree) D x :
  wf t → mkdirp_walk t [] D = inr t' →
  found_of (walk t' [] (D ++ [x])) = found_of (walk t [] (D ++ [x])).
Proof.
  intros Hwf Hrun. pose proof (mkdirp_walk_inv _ _ _ _ Hrun) as Hnofile.
  destruct (mkdirp_walk_spec t [] D Hnofile) as (t'' & Hrun' & Hdirs & Hframe & Hmono).
  rewrite Hrun in Hrun'. injection Hrun' as <-. simpl in *.
  assert (Hx : ∀ i, (i ≤ length D)%nat → D ++ [x] ≠ take i D).
  { intros i Hi Heq. apply (f_equal length) in Heq.
    rewrite length_app, length_take in Heq. simpl in Heq. lia. }
  destruct (walk t [] D) as [n|c] eqn:Ew.
  - (* the directory was there already *)
    f_equal. apply walk_ext. intros i Hi. simpl.
    rewrite length_app in Hi. simpl in Hi.
    apply walk_found in Ew as [Hd Hn]. simpl in *.
    destruct (decide (i ≤ length D)%nat) as [Hle|Hgt].
    + rewrite take_app_le by done. rewrite Hdirs by done. symmetry.
      destruct (decide (i = length D)) as [->|Hne].
      * rewrite firstn_all. destruct n as [m d|]; [|done].
        exfalso. apply (Hnofile (length D) m d); [lia|]. by rewrite firstn_all.
      * apply Hd. lia.
    + rewrite take_ge by (rewrite length_app; simpl; lia).
      apply Hframe. intros j Hj. by apply Hx.
  - (* a directory on the way was missing *)
    apply walk_missing in Ew as (i & Hi & [Hnone|(m & d & Hfile)]); simpl in *.
    + assert (Hbelow : t !! (D ++ [x]) = None).
      { rewrite <- (take_drop i D), <- app_assoc.
        by apply wf_missing_below. }
      destruct (walk t' [] (D ++ [x])) as [n|c'] eqn:E1.
      * apply walk_found in E1 as [_ Hn]. simpl in Hn.
        rewrite Hframe in Hn by (intros j Hj; by apply Hx). congruence.
      * destruct (walk t [] (D ++ [x])) as [n|c''] eqn:E2; [|done].
        apply walk_found in E2 as [_ Hn]. simpl in Hn. congruence.
    + exfalso. by eapply (Hnofile i).
Qed.

(** *** [open] *)

Lemma resolved_path_nonempty cwd location o :
  path (new_FsDatastore cwd location o) ≠ [].
Proof. done. Qed.



(** *** Catching every error: [has] *)

(** [try { await m; return true } catch (err) { return false }] answers for
    every [m] and every error that [m] raises. *)
Lemma try_catch_total (m : io unit) (w : world) :
  try_catch (_ ← m; mret true) (λ _, mret false) w =
    (Ok (is_ok (fst (m w))), snd (m w)).
Proof. io_unfold. destruct (m w) as [[[]|e] w']; reflexivity. Qed.

Lemma fsAccess_pure p mode w : snd (fsAccess p mode w) = w.
Proof.
  unfold fsAccess. destruct (lookup_path p (tree w)) as [[m d|]|c]; try done.
  by destruct (Z.land m mode =? mode).
Qed.

Lemma has_outcome (this : FsDatastore) (k : Key) (w : world) :
  has this k w =
    (Ok (match found_of (lookup_path (file (_encode this k)) (tree w)) with
         | Some _ => true
         | None => false
         end), w).
Proof.
  unfold has, fsAccess, F_OK. io_unfold.
  destruct (lookup_path _ (tree w)) as [[m d|]|c]; try reflexivity.
  by rewrite Z.land_0_r.
Qed.

(** C8: [has] never raises. It resolves to [true] when the access check on
    the encoded file succeeds and to [false] on every error of that check,
    whatever the error is, and it leaves the file system as it was. *)
Theorem has_never_raises (this : FsDatastore) (k : Key) (w : world) :
  has this k w =
    (Ok (is_ok (fst (fsAccess (file (_encode this k)) F_OK w))), w) ∧
  (fst (fsAccess (file (_encode this k)) F_OK w) = Ok tt →
     has this k w = (Ok true, w)) ∧
  (∀ e, fst (fsAccess (file (_encode this k)) F_OK w) = Err e →
     has this k w = (Ok false, w)).
Proof.
  assert (H : has this k w =
    (Ok (is_ok (fst (fsAccess (file (_encode this k)) F_OK w))), w)).
  { unfold has. rewrite try_catch_total. by rewrite fsAccess_pure. }
  split; [exact H|]. split.
  - intros E. rewrite H, E. reflexivity.
  - intros e E. rewrite H, E. reflexivity.
Qed.

Lemma has_never_raises_witness :
  fsAccess (str "/r/a/b.data") F_OK raw_world =
    (Err (mkError "ENOTDIR" "access"), raw_world) ∧
  has store (Key_new (str "/a/b")) raw_world = (Ok false, raw_world).
Proof.
  split; [vm_compute; reflexivity|].
  destruct (has_never_raises store (Key_new (str "/a/b")) raw_world)
    as (_ & _ & H).
  apply (H (mkError "ENOTDIR" "access")). vm_compute. reflexivity.
Defined.

(** *** [delete] *)

Lemma delete_cases (this : FsDatastore) (k : Key) (w : world) :
  let f := file (_encode this k) in
  delete this k w =
    match lookup_path f (tree w) with
    | Found (File _ _) =>
        (Ok tt, with_tree w (base.delete (segments f) (tree w)))
    | Found Dir => (Err (dbDeleteFailedError (mkError "EISDIR" "unlink")), w)
    | Missing c =>
        if (c =? "ENOENT")%string then (Ok tt, w)
        else (Err (dbDeleteFailedError (mkError c "unlink")), w)
    end.
Proof.
  intros f. unfold delete, fsUnlink. io_unfold. fold f.
  destruct (lookup_path f (tree w)) as [[m d|]|c]; try reflexivity.
  simpl. destruct (c =? "ENOENT")%string; reflexivity.
Qed.

Lemma lookup_after_unlink (f : jsstring) (t : fstree) m d :
  lookup_path f t = Found (File m d) →
  lookup_path f (base.delete (segments f) t) = Missing "ENOENT".
Proof.
  unfold lookup_path. destruct f as [|c f]; [done|].
  destruct (walk t [] (segments (c :: f))) as [[m' d'|]|c'] eqn:Ew;
    try discriminate.
  intros _. pose proof (walk_delete_target _ [] _ _ _ Ew) as Hd.
  simpl in Hd. by rewrite Hd.
Qed.




(** *** The atomic writer *)

Lemma writeFile_cases (p : jsstring) (v : list byte) (w : world) :
  writeFile p v w =
    match writeAtomic p v w with
    | (Ok _, w') => (Ok tt, w')
    | (Err err, w') =>
        if rename_race err then
          match fsAccess p (Z.lor F_OK W_OK) w' with
          | (Ok _, w'') => (Ok tt, w'')
          | (Err e, w'') => (Err e, w'')
          end
        else (Err err, w')
    end.
Proof.
  unfold writeFile, rename_race. io_unfold.
  destruct (writeAtomic p v w) as [[[]|err] w']; [done|].
  destruct (_ && _); [|done].
  by destruct (fsAccess p _ w') as [[[]|e] w''].
Qed.

Lemma rename_race_eq err :
  rename_race err = true → err = mkError "EPERM" "rename".
Proof.
  unfold rename_race. intros H. apply andb_prop in H as [H1 H2].
  apply String.eqb_eq in H1, H2. destruct err; simpl in *. by subst.
Qed.

(** What [writeFile] does on the rename race in general: the outcome is the
    outcome of the [F_OK | W_OK] access check; every other error of the
    atomic write is rethrown as it is. *)
Lemma writeFile_on_error (p : jsstring) (v : list byte) (w w' : world) err :
  writeAtomic p v w = (Err err, w') →
  writeFile p v w =
    if rename_race err then fsAccess p (Z.lor F_OK W_OK) w' else (Err err, w').
Proof.
  intros H. rewrite writeFile_cases, H. destruct (rename_race err); [|done].
  by destruct (fsAccess p _ w') as [[[]|e] w''].
Qed.

(** C5, at the failing input: the rename fails with EPERM onto a file that
    is writable but not readable; [writeFile] checks [F_OK | W_OK] only and
    reports success, although the file cannot be read. *)
Theorem writeFile_race_skips_read_check :
  writeFile (str "/r/a.data") (bytes_of "new") writeonly_world =
    (Ok tt, writeonly_world) ∧
  Z.lor F_OK W_OK = W_OK ∧
  fsAccess (str "/r/a.data") (Z.lor R_OK W_OK) writeonly_world =
    (Err (mkError "EACCES" "access"), writeonly_world) ∧
  fsReadFile (str "/r/a.data") writeonly_world =
    (Err (mkError "EACCES" "open"), writeonly_world).
Proof. repeat split; vm_compute; reflexivity. Qed.

(** A completed atomic write: the destination has a last segment and no
    trailing separator, its directory exists, and it now holds the bytes,
    readable and writable. *)
Lemma writeAtomic_ok (p : jsstring) (v : list byte) (w w' : world) :
  writeAtomic p v w = (Ok tt, w') →
  ∃ l a, segments p = l ++ [a] ∧ p ≠ [] ∧ trailingSeparator p = false ∧
         walk (tree w) [] l = Found Dir ∧
         write_faults w !! (l ++ [a]) = None ∧
         w' = with_tree w (<[l ++ [a] := File 6 v]> (tree w)).
Proof.
  unfold writeAtomic.
  destruct (write_faults w !! segments p) eqn:Ef; [discriminate|].
  destruct p as [|c p]; [discriminate|].
  destruct (segments (c :: p)) as [|s0 segs0] eqn:Es; [discriminate|].
  destruct (exists_last (l := s0 :: segs0)) as (l & a & Hla); [done|].
  rewrite Hla in *. clear Hla.
  destruct (trailingSeparator (c :: p)) eqn:Et.
  { destruct (walk _ _ _) as [[]|]; discriminate. }
  rewrite removelast_last.
  destruct (walk (tree w) [] l) as [[m d|]|e] eqn:Ew; try discriminate.
  destruct (tree w !! (l ++ [a])) as [[m d|]|] eqn:El; try discriminate;
    intros [= <-]; exists l, a; done.
Qed.

Lemma read_after_write (p : jsstring) (v : list byte) (w w' : world) :
  writeAtomic p v w = (Ok tt, w') → fsReadFile p w' = (Ok v, w').
Proof.
  intros H. apply writeAtomic_ok in H as (l & a & Hs & Hp & Ht & Hw & _ & ->).
  unfold fsReadFile, lookup_path. destruct p as [|c p]; [done|].
  rewrite tree_with_tree, Hs, (walk_insert_last _ _ _ _ Hw), Ht.
  reflexivity.
Qed.

Lemma writeFile_state (p : jsstring) (v : list byte) (w : world) :
  snd (writeFile p v w) = w ∨
  writeAtomic p v w = (Ok tt, snd (writeFile p v w)).
Proof.
  rewrite writeFile_cases.
  destruct (writeAtomic p v w) as [[[]|err] w'] eqn:E; [by right|].
  left. assert (w' = w) as ->.
  { revert E. unfold writeAtomic.
    destruct (write_faults w !! _); [by intros [= _ <-]|].
    destruct p as [|c p]; [by intros [= _ <-]|].
    destruct (segments (c :: p)); [by intros [= _ <-]|].
    destruct (trailingSeparator _).
    - destruct (walk _ _ _) as [[]|]; by intros [= _ <-].
    - destruct (walk _ _ _) as [[]|]; try by intros [= _ <-].
      destruct (tree w !! _) as [[]|]; by intros [= _ <-]. }
  destruct (rename_race err); [|done].
  pose proof (fsAccess_pure p (Z.lor F_OK W_OK) w) as Hp.
  by destruct (fsAccess p _ w) as [[[]|e] w''].
Qed.

Lemma insert_frame (t : fstree) D x y n :
  x ≠ y → walk (<[D ++ [y] := n]> t) [] (D ++ [x]) = walk t [] (D ++ [x]).
Proof.
  intros Hxy. apply walk_ext. intros i Hi. simpl.
  apply lookup_insert_ne. intros Heq.
  rewrite length_app in Hi. simpl in Hi.
  destruct (decide (i = length D + 1)%nat) as [->|Hne].
  - rewrite take_ge in Heq by (rewrite length_app; simpl; lia).
    apply app_inj_tail in Heq as [_ Heq]. congruence.
  - apply (f_equal length) in Heq.
    rewrite length_take, !length_app in Heq. simpl in Heq. lia.
Qed.

(** *** [put] and [get] *)

Lemma put_cases (this : FsDatastore) (k : Key) (v : list byte) (w : world) :
  put this k v w =
    match mkdirp (dir (_encode this k)) w with
    | (Ok _, w1) =>
        match writeFile (file (_encode this k)) v w1 with
        | (Ok _, w2) => (Ok tt, w2)
        | (Err e, w2) => (Err (dbWriteFailedError e), w2)
        end
    | (Err e, w1) => (Err (dbWriteFailedError e), w1)
    end.
Proof.
  unfold put. io_unfold.
  destruct (mkdirp _ w) as [[[]|e] w1]; [|done].
  by destruct (writeFile _ v w1) as [[[]|e] w2].
Qed.

Lemma put_state (this : FsDatastore) (k : Key) (v : list byte) (w : world) :
  snd (put this k v w) =
  snd ((_ ← mkdirp (dir (_encode this k)); writeFile (file (_encode this k)) v) w).
Proof.
  rewrite put_cases. io_unfold.
  destruct (mkdirp _ w) as [[[]|e] w1]; [|done].
  by destruct (writeFile _ v w1) as [[[]|e] w2].
Qed.

(** Every failure of [put] is a WriteFailed error. *)
Lemma put_fails_with_WriteFailed this k v w e :
  fst (put this k v w) = Err e → code e = "ERR_DB_WRITE_FAILED"%string.
Proof.
  rewrite put_cases.
  destruct (mkdirp _ w) as [[[]|e1] w1]; [|by intros [= <-]].
  destruct (writeFile _ v w1) as [[[]|e2] w2]; [done|by intros [= <-]].
Qed.

(** C4, at the failing input: the destination of [putRaw] is a directory;
    the rename fails and [putRaw] lets the raw EISDIR error through, where
    [put], failing the same way, raises WriteFailed. *)
Theorem putRaw_raises_raw_error :
  putRaw store key_a (bytes_of "v") nested_world =
    (Err (mkError "EISDIR" "rename"), nested_world) ∧
  code (mkError "EISDIR" "rename") ≠ "ERR_DB_WRITE_FAILED"%string ∧
  put store key_a (bytes_of "v") nested_data_world =
    (Err (mkError "ERR_DB_WRITE_FAILED" "rename"), nested_data_world).
Proof. split; [|split]; [vm_compute; reflexivity|discriminate|vm_compute; reflexivity]. Qed.

Lemma read_or_not_found (p : jsstring) (w : world) :
  try_catch (fsReadFile p) (λ err, throw (notFoundError err)) w =
    (read_outcome (found_of (lookup_path p (tree w))), w).
Proof.
  unfold fsReadFile. io_unfold.
  destruct (lookup_path p (tree w)) as [[m d|]|c];
    cbn [found_of read_outcome]; try done.
  destruct (Z.land m R_OK =? R_OK); reflexivity.
Qed.

(** C1, as amended: when [put k v] succeeded and the environment did not
    answer its rename with the EPERM error that [writeFile] resolves as a
    race, [get k] afterwards returns exactly [v], for every key and every
    value, the empty one included. *)
Theorem get_after_put (this : FsDatastore) (k : Key) (v : list byte)
    (w w' : world) :
  put this k v w = (Ok tt, w') →
  write_faults w !! segments (file (_encode this k)) ≠
    Some (mkError "EPERM" "rename") →
  get this k w' = (Ok v, w').
Proof.
  rewrite put_cases. intros Hput Hfault.
  destruct (mkdirp _ w) as [[[]|e1] w1] eqn:Em; [|discriminate].
  apply mkdirp_faults in Em.
  rewrite writeFile_cases in Hput.
  destruct (writeAtomic _ v w1) as [[[]|err] w2] eqn:Ew.
  - injection Hput as ->. unfold get. io_unfold.
    by rewrite (read_after_write _ _ _ _ Ew).
  - exfalso. destruct (rename_race err) eqn:Er.
    + apply rename_race_eq in Er as ->. apply Hfault. rewrite <- Em.
      revert Ew. unfold writeAtomic.
      destruct (write_faults w1 !! _) as [e|]; [by intros [= -> _]|].
      destruct (file (_encode this k)) as [|c p]; [discriminate|].
      destruct (segments (c :: p)); [discriminate|].
      destruct (trailingSeparator _).
      * destruct (walk _ _ _) as [[]|]; discriminate.
      * destruct (walk _ _ _) as [[]|]; try discriminate.
        destruct (tree w1 !! _) as [[]|]; discriminate.
    + discriminate.
Qed.

(** C1, counterexample: [put] succeeds through the race resolution of
    [writeFile] without writing, and [get] returns the bytes that were there
    before. *)
Lemma put_race_keeps_old_value :
  put store key_a (bytes_of "new") race_world = (Ok tt, race_world) ∧
  get store key_a race_world = (Ok (bytes_of "old"), race_world) ∧
  bytes_of "old" ≠ bytes_of "new".
Proof. split; [|split]; [vm_compute; reflexivity..|discriminate]. Qed.

Lemma get_after_put_witness :
  let w' := after (put store key_a []) opened in
  put store key_a [] opened = (Ok tt, w') ∧
  write_faults opened !! segments (file (_encode store key_a)) ≠
    Some (mkError "EPERM" "rename") ∧
  get store key_a w' = (Ok [], w').
Proof.
  assert (H1 : put store key_a [] opened =
               (Ok tt, after (put store key_a []) opened))
    by (vm_compute; reflexivity).
  assert (H2 : write_faults opened !! segments (file (_encode store key_a)) ≠
               Some (mkError "EPERM" "rename"))
    by (vm_compute; discriminate).
  split; [exact H1|]. split; [exact H2|].
  exact (get_after_put store key_a [] opened _ H1 H2).
Defined.

(** *** The raw and the tagged files of a key *)

(** Creating the directory [D] and writing the file [y] in it does not
    change what the sibling name [x] resolves to. *)
Lemma sibling_frame (dirp other : jsstring) D x y (v : list byte) (w : world) :
  wf (tree w) → segments dirp = D → segments other = D ++ [y] → x ≠ y →
  found_of (walk (tree (snd ((_ ← mkdirp dirp; writeFile other v) w))) []
              (D ++ [x])) =
  found_of (walk (tree w) [] (D ++ [x])).
Proof.
  intros Hwf Hd Ho Hxy. io_unfold.
  destruct (mkdirp dirp w) as [[[]|e] w1] eqn:Em.
  - assert (Hm : found_of (walk (tree w1) [] (D ++ [x])) =
                 found_of (walk (tree w) [] (D ++ [x]))).
    { revert Em. unfold mkdirp. destruct dirp as [|c dirp]; [done|].
      rewrite Hd. destruct (mkdirp_walk (tree w) [] D) as [c'|t'] eqn:Er; [done|].
      intros [= <-]. rewrite tree_with_tree. by apply mkdirp_frame. }
    destruct (writeFile_state other v w1) as [->|Hwa]; [done|].
    apply writeAtomic_ok in Hwa as (l & a & Hs & _ & _ & _ & _ & ->).
    rewrite Ho in Hs. apply app_inj_tail in Hs as [<- <-].
    rewrite tree_with_tree, insert_frame by done. exact Hm.
  - revert Em. unfold mkdirp. destruct dirp as [|c dirp]; [by intros [= _ <-]|].
    destruct (mkdirp_walk _ _ _); [by intros [= _ <-]|done].
Qed.

(** C10, as amended: with a non-empty extension that contains no ['/'], and
    for every sanitized key, [putRaw] changes neither the result of [get] nor
    that of [has], and [put] does not change the result of [getRaw]. *)
Theorem raw_and_tagged_disjoint (cwd location : jsstring) (o : options)
    (k : Key) (v : list byte) (w : world) :
  let this := new_FsDatastore cwd location o in
  extension o ≠ [] → slash ∉ extension o → valid_key k → wf (tree w) →
  get this k (snd (putRaw this k v w)) =
    (fst (get this k w), snd (putRaw this k v w)) ∧
  has this k (snd (putRaw this k v w)) =
    (fst (has this k w), snd (putRaw this k v w)) ∧
  getRaw this k (snd (put this k v w)) =
    (fst (getRaw this k w), snd (put this k v w)).
Proof.
  intros this Hne Hs Hk Hwf.
  destruct (root_form cwd location o) as (rs & Hroot & Hrs).
  fold this in Hroot.
  assert (Ho : extension (opts this) = extension o) by done.
  clearbody this. rewrite <- Ho in Hne, Hs.
  destruct (valid_key_form k Hk) as (ps & leaf & Hstr & Hl & Hks).
  destruct (encode_valid this rs k ps leaf) as (Hdir & _ & Hfile); try done.
  set (ext := extension (opts this)) in *.
  rewrite app_assoc in Hfile. set (D := rs ++ ps) in *.
  assert (Hleaf : clean_name leaf).
  { apply Forall_app in Hks as [_ H]. by inversion H. }
  assert (HD : Forall is_name D).
  { apply clean_is_name. apply Forall_app. split; [done|].
    by apply Forall_app in Hks as [H _]. }
  pose proof (clean_name_ext leaf ext Hleaf Hne Hs) as [Hle _].
  assert (Hxy : leaf ++ ext ≠ leaf).
  { intros H. apply (f_equal length) in H. rewrite length_app in H.
    destruct ext; [done|simpl in H; lia]. }
  assert (Hfsegs : segments (path_of (D ++ [leaf ++ ext])) = D ++ [leaf ++ ext]).
  { apply segments_path_of. apply Forall_app. split; [done|]. by constructor. }
  assert (Hrsegs : segments (path_of (D ++ [leaf])) = D ++ [leaf]).
  { apply segments_path_of. apply Forall_app. split; [done|].
    constructor; [by destruct Hleaf|done]. }
  assert (Hfl : ∀ t, lookup_path (path_of (D ++ [leaf ++ ext])) t =
                     walk t [] (D ++ [leaf ++ ext])).
  { intros t. rewrite lookup_path_plain, Hfsegs; [done|done|].
    by apply path_of_plain. }
  assert (Hrl : ∀ t, lookup_path (path_of (D ++ [leaf])) t =
                     walk t [] (D ++ [leaf])).
  { intros t. rewrite lookup_path_plain, Hrsegs; [done|done|].
    apply path_of_plain. by destruct Hleaf. }
  assert (Hraw : slice (file (_encode this k)) 0 (- len ext) =
                 path_of (D ++ [leaf])).
  { rewrite Hfile. by apply raw_path. }
  assert (Hputraw : found_of (walk (tree (snd (putRaw this k v w))) []
                               (D ++ [leaf ++ ext])) =
                    found_of (walk (tree w) [] (D ++ [leaf ++ ext]))).
  { unfold putRaw. fold ext. rewrite Hraw.
    apply (sibling_frame _ _ D (leaf ++ ext) leaf); done. }
  assert (Hput : found_of (walk (tree (snd (put this k v w))) [] (D ++ [leaf])) =
                 found_of (walk (tree w) [] (D ++ [leaf]))).
  { rewrite put_state, Hfile.
    apply (sibling_frame _ _ D leaf (leaf ++ ext)); try done; congruence. }
  split; [|split].
  - unfold get. rewrite !read_or_not_found, Hfile, !Hfl. cbn [fst].
    by rewrite Hputraw.
  - rewrite !has_outcome, Hfile, !Hfl. cbn [fst]. by rewrite Hputraw.
  - unfold getRaw. fold ext. rewrite !read_or_not_found, Hraw, !Hrl.
    cbn [fst]. by rewrite Hput.
Qed.

(** C10, counterexample: with the extension [/..] the file of the key
    [/abcd/x] is the directory [/r/abcd], which [putRaw] creates before it
    writes [/r/a]; [has] answers [false] before and [true] after. *)
Lemma putRaw_changes_has :
  extension (opts dotdot_store) ≠ [] ∧
  file (_encode dotdot_store (Key_new (str "/abcd/x"))) = str "/r/abcd" ∧
  fst (putRaw dotdot_store (Key_new (str "/abcd/x")) (bytes_of "v") opened) =
    Ok tt ∧
  fst (has dotdot_store (Key_new (str "/abcd/x")) opened) = Ok false ∧
  fst (has dotdot_store (Key_new (str "/abcd/x"))
         (snd (putRaw dotdot_store (Key_new (str "/abcd/x")) (bytes_of "v")
                 opened))) = Ok true.
Proof. split; [discriminate|]. repeat split; vm_compute; reflexivity. Qed.

Lemma raw_and_tagged_disjoint_witness :
  let k := Key_new (str "/a/b") in
  let v := bytes_of "v" in
  extension default_options ≠ [] ∧ (slash ∉ extension default_options) ∧
  valid_key k ∧ wf (tree opened) ∧
  get store k (snd (putRaw store k v opened)) =
    (fst (get store k opened), snd (putRaw store k v opened)) ∧
  has store k (snd (putRaw store k v opened)) =
    (fst (has store k opened), snd (putRaw store k v opened)) ∧
  getRaw store k (snd (put store k v opened)) =
    (fst (getRaw store k opened), snd (put store k v opened)).
Proof.
  assert (H1 : extension default_options ≠ []) by discriminate.
  assert (H2 : slash ∉ extension default_options)
    by (vm_compute; not_in_literal).
  assert (H3 : wf (tree opened)) by (apply wfb_wf; vm_compute; reflexivity).
  split; [exact H1|]. split; [exact H2|]. split; [exact valid_key_a_b|].
  split; [exact H3|].
  exact (raw_and_tagged_disjoint (str "/") (str "/r") default_options
           (Key_new (str "/a/b")) (bytes_of "v") opened H1 H2 valid_key_a_b H3).
Defined.

(** *** Enumeration without values *)

Lemma same_shapeb_spec t1 t2 : same_shapeb t1 t2 = true → same_shape t1 t2.
Proof.
  unfold same_shapeb. rewrite andb_true_iff, !forallb_forall.
  intros [H1 H2] p.
  destruct (t1 !! p) as [n1|] eqn:E1.
  - assert (Hin : In p (elements (dom t1))).
    { apply list_elem_of_In, elem_of_elements, elem_of_dom. eauto. }
    apply H1, bool_decide_eq_true in Hin. by rewrite E1 in Hin.
  - destruct (t2 !! p) as [n2|] eqn:E2; [|done].
    assert (Hin : In p (elements (dom t2))).
    { apply list_elem_of_In, elem_of_elements, elem_of_dom. eauto. }
    apply H2, bool_decide_eq_true in Hin. by rewrite E1, E2 in Hin.
Qed.

Lemma same_shape_lookup t1 t2 p :
  same_shape t1 t2 → is_dir <$> (t1 !! p) = is_dir <$> (t2 !! p).
Proof. intros H. apply H. Qed.

Lemma same_shape_dom t1 t2 : same_shape t1 t2 → dom t1 = dom t2.
Proof.
  intros H. apply set_eq. intros p. rewrite !elem_of_dom.
  specialize (H p). by destruct (t1 !! p), (t2 !! p).
Qed.

Lemma walk_shape t1 t2 pre rest :
  same_shape t1 t2 →
  is_dir <$> found_of (walk t1 pre rest) = is_dir <$> found_of (walk t2 pre rest).
Proof.
  intros H. revert pre. induction rest as [|s rest IH]; intros pre; simpl;
    pose proof (same_shape_lookup t1 t2 pre H) as Hp.
  - destruct (t1 !! pre), (t2 !! pre); simpl in *; congruence.
  - destruct (t1 !! pre) as [[]|], (t2 !! pre) as [[]|]; simpl in *;
      try congruence; apply IH.
Qed.

Lemma reachable_shape t1 t2 segs :
  same_shape t1 t2 → reachable t1 segs = reachable t2 segs.
Proof.
  intros H. pose proof (walk_shape t1 t2 [] segs H) as Hw. unfold reachable.
  destruct (walk t1 [] segs), (walk t2 [] segs); simpl in *; congruence.
Qed.

Lemma glob_sync_shape (pattern : jsstring) (w1 w2 : world) :
  same_shape (tree w1) (tree w2) → glob_sync pattern w1 = glob_sync pattern w2.
Proof.
  intros H. unfold glob_sync.
  rewrite (same_shape_dom _ _ H). f_equal. apply list_filter_iff. intros segs.
  by rewrite (reachable_shape _ _ segs H).
Qed.

Lemma map_iter_Forall {A B} (f : A → result B) (P : B → Prop) (l : list A) :
  (∀ x y, f x = Ok y → P y) → Forall P (fst (map_iter f l)).
Proof.
  intros H. induction l as [|x l IH]; simpl; [constructor|].
  destruct (f x) as [y|e] eqn:E; [|constructor].
  destruct (map_iter f l) as [ys e']. simpl in *. constructor; eauto.
Qed.



(** C9: a query with [keysOnly] set yields entries that carry a key and no
    value, and its outcome is the same in two worlds of the same shape,
    whatever bytes their files hold. *)
Theorem keysOnly_ignores_contents (this : FsDatastore) (q : query)
    (w1 w2 : world) :
  keysOnly q = true → same_shape (tree w1) (tree w2) →
  _all this q w1 = _all this q w2 ∧
  Forall (λ e, value e = None) (fst (_all this q w1)).
Proof.
  intros Hk Hs. unfold _all. rewrite Hk. cbn [negb]. split.
  - by rewrite (glob_sync_shape _ w1 w2 Hs).
  - apply map_iter_Forall. intros f e.
    destruct (_decode this f); [|done]. by intros [= <-].
Qed.

Lemma keysOnly_ignores_contents_witness :
  keysOnly (keys_only None) = true ∧
  same_shape (tree values_1) (tree values_2) ∧
  tree values_1 ≠ tree values_2 ∧
  _all store (keys_only None) values_1 = _all store (keys_only None) values_2 ∧
  Forall (λ e, value e = None) (fst (_all store (keys_only None) values_1)).
Proof.
  assert (H0 : keysOnly (keys_only None) = true) by reflexivity.
  assert (H1 : same_shape (tree values_1) (tree values_2))
    by (apply same_shapeb_spec; vm_compute; reflexivity).
  split; [exact H0|]. split; [exact H1|]. split.
  - intros H. apply (f_equal (λ t, t !! [str "r"; str "b"; str "1.data"])) in H.
    vm_compute in H. discriminate.
  - exact (keysOnly_ignores_contents store (keys_only None) values_1 values_2
             H0 H1).
Defined.

(** *** Glob patterns and the query with a prefix *)
















(** ** Further properties of the operations *)

(** *** What a successful write leaves behind *)

Lemma lookup_after_write (p : jsstring) (v : list byte) (w w' : world) :
  writeAtomic p v w = (Ok tt, w') →
  lookup_path p (tree w') = Found (File 6 v).
Proof.
  intros H. apply writeAtomic_ok in H as (l & a & Hs & Hp & Ht & Hw & _ & ->).
  unfold lookup_path. destruct p as [|c p]; [done|].
  by rewrite tree_with_tree, Hs, (walk_insert_last _ _ _ _ Hw), Ht.
Qed.

Lemma writeAtomic_error_state (p : jsstring) (v : list byte) (w w' : world) err :
  writeAtomic p v w = (Err err, w') →
  w' = w ∧ (rename_race err = true →
            write_faults w !! segments p = Some (mkError "EPERM" "rename")).
Proof.
  unfold writeAtomic.
  assert (Hno : ∀ c s, s ≠ "rename"%string →
            w = w ∧ (rename_race (mkError c s) = true →
              write_faults w !! segments p = Some (mkError "EPERM" "rename"))).
  { intros c s Hs. split; [done|]. intros Hr.
    apply rename_race_eq in Hr. by inversion Hr. }
  destruct (write_faults w !! segments p) as [e|] eqn:Ef.
  { intros [= -> <-]. split; [done|]. intros Hr.
    by apply rename_race_eq in Hr as ->. }
  destruct p as [|c p]; [intros [= <- <-]; by apply Hno|].
  destruct (segments (c :: p)) eqn:Es.
  { intros [= <- <-]. split; [done|]. intros Hr. discriminate Hr. }
  destruct (trailingSeparator _).
  - destruct (walk _ _ _) as [[]|]; intros [= <- <-];
      try (by apply Hno); by split.
  - destruct (walk _ _ _) as [[]|]; try (intros [= <- <-]; by apply Hno).
    destruct (tree w !! _) as [[]|]; try discriminate.
    intros [= <- <-]. by split.
Qed.

(** [writeFile] succeeds in two ways: the atomic write completed, or the
    rename was answered with EPERM, nothing was written, and the
    destination is there. *)
Lemma writeFile_ok_cases (p : jsstring) (v : list byte) (w w' : world) :
  writeFile p v w = (Ok tt, w') →
  writeAtomic p v w = (Ok tt, w') ∨
  (write_faults w !! segments p = Some (mkError "EPERM" "rename") ∧
   w' = w ∧ ∃ n, lookup_path p (tree w) = Found n).
Proof.
  rewrite writeFile_cases.
  destruct (writeAtomic p v w) as [[[]|err] w1] eqn:Ew.
  - intros [= <-]. by left.
  - apply writeAtomic_error_state in Ew as [-> Hf].
    destruct (rename_race err); [|discriminate].
    unfold fsAccess.
    destruct (lookup_path p (tree w)) as [n|c] eqn:El; [|discriminate].
    intros H. right. split; [by apply Hf|]. split; [|by exists n].
    destruct n as [m d|]; [|by injection H].
    destruct (Z.land m _ =? _); [by injection H|discriminate].
Qed.

Lemma put_ok_found (this : FsDatastore) (k : Key) (v : list byte) (w w' : world) :
  put this k v w = (Ok tt, w') →
  ∃ n, lookup_path (file (_encode this k)) (tree w') = Found n.
Proof.
  rewrite put_cases.
  destruct (mkdirp _ w) as [[[]|e1] w1]; [|discriminate].
  destruct (writeFile _ v w1) as [[[]|e2] w2] eqn:Ew; [|discriminate].
  intros [= <-]. apply writeFile_ok_cases in Ew as [Hw|(_ & -> & Hn)]; [|done].
  eexists. by apply lookup_after_write in Hw.
Qed.

(** X1: after a [put] that succeeded, [has] answers [true] for the key, for
    every key and every world, also when the success is the resolved rename
    race. *)
Theorem has_after_put (this : FsDatastore) (k : Key) (v : list byte)
    (w w' : world) :
  put this k v w = (Ok tt, w') → has this k w' = (Ok true, w').
Proof.
  intros H. apply put_ok_found in H as [n Hn]. by rewrite has_outcome, Hn.
Qed.

Lemma has_after_put_witness :
  put store key_a (bytes_of "new") race_world = (Ok tt, race_world) ∧
  has store key_a race_world = (Ok true, race_world).
Proof.
  assert (H : put store key_a (bytes_of "new") race_world = (Ok tt, race_world))
    by (vm_compute; reflexivity).
  split; [exact H|]. exact (has_after_put store key_a _ _ _ H).
Defined.

(** X2: after a [delete] that succeeded, whether it removed the file or
    found none, [has] answers [false] and [get] fails with NotFound. *)
Theorem absent_after_delete (this : FsDatastore) (k : Key) (w w' : world) :
  delete this k w = (Ok tt, w') →
  has this k w' = (Ok false, w') ∧
  get this k w' = (Err (mkError "ERR_NOT_FOUND" "open"), w').
Proof.
  pose proof (delete_cases this k w) as Hc. cbv zeta in Hc. rewrite Hc.
  set (f := file (_encode this k)).
  assert (Hgo : ∀ w0, lookup_path f (tree w0) = Missing "ENOENT" →
            has this k w0 = (Ok false, w0) ∧
            get this k w0 = (Err (mkError "ERR_NOT_FOUND" "open"), w0)).
  { intros w0 Hl. rewrite has_outcome. unfold get. rewrite read_or_not_found.
    fold f. by rewrite Hl. }
  destruct (lookup_path f (tree w)) as [[m d|]|c] eqn:El.
  - intros [= <-]. apply Hgo. rewrite tree_with_tree.
    by apply (lookup_after_unlink f _ m d).
  - discriminate.
  - destruct (c =? "ENOENT")%string eqn:Ec; [|discriminate].
    intros [= <-]. apply Hgo. apply String.eqb_eq in Ec. by rewrite El, Ec.
Qed.

Lemma absent_after_delete_witness :
  let w := after (put store key_a (bytes_of "x")) opened in
  let w' := after (delete store key_a) w in
  has store key_a w = (Ok true, w) ∧
  delete store key_a w = (Ok tt, w') ∧
  has store key_a w' = (Ok false, w') ∧
  get store key_a w' = (Err (mkError "ERR_NOT_FOUND" "open"), w').
Proof.
  assert (H : delete store key_a (after (put store key_a (bytes_of "x")) opened) =
              (Ok tt, after (delete store key_a)
                        (after (put store key_a (bytes_of "x")) opened)))
    by (vm_compute; reflexivity).
  split; [vm_compute; reflexivity|]. split; [exact H|].
  exact (absent_after_delete store key_a _ _ H).
Defined.

(** *** Paths that an operation does not touch *)




(** Replacing, adding or removing a node that is not a directory changes
    what no other path resolves to. *)
Lemma leaf_change_frame (t t' : fstree) F Q :
  (∀ p, p ≠ F → t' !! p = t !! p) →
  t !! F ≠ Some Dir → t' !! F ≠ Some Dir → Q ≠ F →
  found_of (walk t' [] Q) = found_of (walk t [] Q).
Proof.
  intros Hsame Hf Hf' HQ.
  assert (Hext : (∀ i, (i < length Q)%nat → take i Q ≠ F) →
                 walk t' [] Q = walk t [] Q).
  { intros Hp. apply walk_ext. intros i Hi. simpl. apply Hsame.
    destruct (decide (i = length Q)) as [->|Hne].
    - by rewrite firstn_all.
    - apply Hp. lia. }
  destruct (walk t [] Q) as [n|c] eqn:Ew.
  - rewrite Hext; [done|]. intros i Hi Heq.
    apply walk_found in Ew as [Hd _]. apply Hf. rewrite <- Heq. by apply Hd.
  - destruct (walk t' [] Q) as [n|c'] eqn:Ew'; [|done].
    exfalso. apply walk_found in Ew' as [Hd _].
    assert (Found n = Missing c); [|done]. apply Hext. intros i Hi Heq.
    apply Hf'. rewrite <- Heq. by apply Hd.
Qed.

Lemma mkdirp_state (p : jsstring) (w : world) :
  snd (mkdirp p w) = w ∨
  ∃ t', mkdirp_walk (tree w) [] (segments p) = inr t' ∧
        mkdirp p w = (Ok tt, with_tree w t').
Proof.
  unfold mkdirp. destruct p as [|c p]; [by left|].
  destruct (mkdirp_walk _ _ _) as [e|t'] eqn:Er; [by left|].
  right. by exists t'.
Qed.

Lemma writeAtomic_ok_target (p : jsstring) (v : list byte) (w w' : world) :
  writeAtomic p v w = (Ok tt, w') → tree w !! segments p ≠ Some Dir.
Proof.
  unfold writeAtomic.
  destruct (write_faults w !! segments p); [discriminate|].
  destruct p as [|c p]; [discriminate|].
  destruct (segments (c :: p)) as [|s0 segs0]; [discriminate|].
  destruct (trailingSeparator (c :: p)).
  { destruct (walk _ _ _) as [[]|]; discriminate. }
  destruct (walk _ _ _) as [[]|]; try discriminate.
  destruct (tree w !! (s0 :: segs0)) as [[]|]; done.
Qed.


(** Two sanitized keys: where their files are. *)
Lemma key_layout (this : FsDatastore) rs (k : Key) :
  path this = path_of rs → Forall clean_name rs →
  extension (opts this) ≠ [] → slash ∉ extension (opts this) → valid_key k →
  ∃ ps leaf,
    toString k = path_of (ps ++ [leaf]) ∧ list_ k = ps ++ [leaf] ∧
    Forall clean_name (ps ++ [leaf]) ∧
    segments (dir (_encode this k)) = rs ++ ps ∧
    file (_encode this k) =
      path_of ((rs ++ ps) ++ [leaf ++ extension (opts this)]) ∧
    Forall is_name ((rs ++ ps) ++ [leaf ++ extension (opts this)]) ∧
    (∀ t, lookup_path (file (_encode this k)) t =
          walk t [] ((rs ++ ps) ++ [leaf ++ extension (opts this)])).
Proof.
  intros Hroot Hrs Hne Hs Hk.
  destruct (valid_key_form k Hk) as (ps & leaf & Hstr & Hl & Hks).
  destruct (encode_valid this rs k ps leaf) as (Hdir & _ & Hfile); try done.
  rewrite app_assoc in Hfile.
  exists ps, leaf. split_and!; try done.
  - apply Forall_app in Hks as [Hps Hleaf]. inversion Hleaf; subst.
    apply clean_is_name. rewrite !Forall_app. split_and!; try done.
    constructor; [|done]. by apply clean_name_ext.
  - intros t. apply Forall_app in Hks as [Hps Hleaf]. inversion Hleaf; subst.
    pose proof (clean_name_ext leaf _ H1 Hne Hs) as [Hle _].
    rewrite Hfile, lookup_path_plain; [| done | by apply path_of_plain].
    rewrite segments_path_of; [done|].
    apply Forall_app. split; [|by constructor].
    apply clean_is_name. by apply Forall_app.
Qed.

(** *** One key and the others *)


Lemma valid_key_a_data_b : valid_key key_a_data_b.
Proof. valid_key_literal. Defined.

Lemma default_extension_ok :
  extension default_options ≠ [] ∧ (slash ∉ extension default_options).
Proof. split; [discriminate|]. vm_compute. not_in_literal. Defined.

Lemma toString_inj (k1 k2 : Key) : toString k1 = toString k2 → k1 = k2.
Proof. destruct k1, k2. unfold toString. simpl. by intros ->. Qed.

Lemma layout_inj (rs ps1 ps2 : list jsstring) (l1 l2 ext : jsstring) :
  (rs ++ ps1) ++ [l1 ++ ext] = (rs ++ ps2) ++ [l2 ++ ext] →
  ps1 = ps2 ∧ l1 = l2.
Proof.
  intros H. apply app_inj_tail in H as [H1 H2].
  apply app_inv_head in H1. apply app_inv_tail in H2. done.
Qed.

(** X3: two different sanitized keys are never stored in the same file
    (the extension being non-empty and without ['/']). *)
Theorem distinct_keys_distinct_files (cwd location : jsstring) (o : options)
    (k1 k2 : Key) :
  let this := new_FsDatastore cwd location o in
  extension o ≠ [] → slash ∉ extension o → valid_key k1 → valid_key k2 →
  k1 ≠ k2 → file (_encode this k1) ≠ file (_encode this k2).
Proof.
  intros this Hne Hs Hk1 Hk2 Hkk Heq.
  destruct (root_form cwd location o) as (rs & Hroot & Hrs).
  destruct (key_layout this rs k1) as (ps1 & l1 & Hs1 & _ & _ & _ & Hf1 & Hn1 & _);
    try done.
  destruct (key_layout this rs k2) as (ps2 & l2 & Hs2 & _ & _ & _ & Hf2 & Hn2 & _);
    try done.
  rewrite Hf1, Hf2 in Heq. apply (f_equal segments) in Heq.
  rewrite !segments_path_of in Heq by done.
  apply layout_inj in Heq as [-> ->]. apply Hkk, toString_inj. congruence.
Qed.

Lemma distinct_keys_distinct_files_witness :
  (extension default_options ≠ [] ∧ (slash ∉ extension default_options) ∧
   valid_key key_a ∧ valid_key key_a_b ∧ key_a ≠ key_a_b) ∧
  file (_encode store key_a) ≠ file (_encode store key_a_b).
Proof.
  assert (H : key_a ≠ key_a_b) by discriminate.
  split.
  - exact (conj (proj1 default_extension_ok) (conj (proj2 default_extension_ok)
             (conj valid_key_a (conj valid_key_a_b H)))).
  - exact (distinct_keys_distinct_files (str "/") (str "/r") default_options
             key_a key_a_b (proj1 default_extension_ok)
             (proj2 default_extension_ok) valid_key_a valid_key_a_b H).
Defined.

Lemma not_prefix_take {A} (Q D : list A) :
  ¬ Q `prefix_of` D → ∀ i, (i ≤ length D)%nat → Q ≠ take i D.
Proof.
  intros Hp i _ ->. apply Hp. exists (drop i D). by rewrite take_drop.
Qed.





(** *** A write that fails *)




(** *** A key whose file is a directory *)

Lemma mkdirp_ok_dir (p : jsstring) (w w' : world) :
  mkdirp p w = (Ok tt, w') → walk (tree w') [] (segments p) = Found Dir.
Proof.
  unfold mkdirp. destruct p as [|c p]; [discriminate|].
  destruct (mkdirp_walk _ _ _) as [e|t'] eqn:Hrun; [discriminate|].
  intros [= <-]. rewrite tree_with_tree.
  pose proof (mkdirp_walk_inv _ _ _ _ Hrun) as Hnofile.
  destruct (mkdirp_walk_spec (tree w) [] (segments (c :: p)) Hnofile)
    as (t'' & Hrun' & Hdirs & _).
  rewrite Hrun in Hrun'. injection Hrun' as <-.
  apply walk_found. split.
  - intros i Hi. apply Hdirs. lia.
  - simpl. rewrite <- (firstn_all (segments (c :: p))) at 1. by apply Hdirs.
Qed.

(** X7: once a key was stored whose parent is named [k] followed by the
    extension, the file of [k] is a directory: [has k] answers [true] though
    [k] was never stored, [get k] fails with NotFound and [delete k] fails
    with DeleteFailed. *)
Theorem key_shadowed_by_directory (cwd location : jsstring) (o : options)
    (k k2 : Key) (v : list byte) (w w' : world) :
  let this := new_FsDatastore cwd location o in
  extension o ≠ [] → slash ∉ extension o → valid_key k → valid_key k2 →
  toString (parent k2) = toString k ++ extension o →
  put this k2 v w = (Ok tt, w') →
  has this k w' = (Ok true, w') ∧
  get this k w' = (Err (mkError "ERR_NOT_FOUND" "read"), w') ∧
  delete this k w' =
    (Err (mkError "ERR_DB_DELETE_FAILED" "unlink"), w').
Proof.
  intros this Hne Hs Hk Hk2 Hpar Hput.
  destruct (root_form cwd location o) as (rs & Hroot & Hrs).
  destruct (key_layout this rs k)
    as (ps & leaf & Hstr & _ & Hks & _ & Hfile & Hnames & Hlook); try done.
  destruct (key_layout this rs k2)
    as (ps2 & leaf2 & Hstr2 & Hl2 & Hks2 & Hdir2 & Hfile2 & Hnames2 & _);
    try done.
  change (extension o) with (extension (opts this)) in Hpar.
  set (ext := extension (opts this)) in *.
  set (F := (rs ++ ps) ++ [leaf ++ ext]) in *.
  assert (Hps2 : ps2 = ps ++ [leaf ++ ext]).
  { apply Forall_app in Hks2 as [Hps2 _]. apply clean_is_name in Hps2.
    rewrite (parent_valid k2 ps2 leaf2 Hl2 Hps2), Hstr, <- path_of_snoc_ext
      in Hpar.
    apply (f_equal segments) in Hpar.
    rewrite !segments_path_of in Hpar; [done| |done].
    apply Forall_app in Hnames as [Hn1 Hn2].
    apply Forall_app in Hn1 as [_ Hn1]. by apply Forall_app. }
  assert (HD : segments (dir (_encode this k2)) = F).
  { rewrite Hdir2, Hps2. unfold F. by rewrite app_assoc. }
  assert (Hdirnode : walk (tree w') [] F = Found Dir).
  { revert Hput. rewrite put_cases.
    destruct (mkdirp _ w) as [[[]|e1] w1] eqn:Em; [|discriminate].
    apply mkdirp_ok_dir in Em. rewrite HD in Em.
    destruct (writeFile _ v w1) as [[[]|e2] w2] eqn:Ew; [|discriminate].
    intros [= <-].
    apply writeFile_ok_cases in Ew as [Hwa|(_ & -> & _)]; [|done].
    pose proof (writeAtomic_ok_target _ _ _ _ Hwa) as Hnd.
    apply writeAtomic_ok in Hwa as (l & a & Hsg & _ & _ & _ & _ & ->).
    rewrite Hsg in Hnd. rewrite tree_with_tree.
    assert (Hfr : found_of (walk (<[l ++ [a] := File 6 v]> (tree w1)) [] F) =
                  found_of (walk (tree w1) [] F)).
    { apply leaf_change_frame with (F := l ++ [a]); [|done| |].
      - intros q Hq. by apply lookup_insert_ne.
      - by rewrite lookup_insert_eq.
      - rewrite <- Hsg, Hfile2, segments_path_of, <- HD, Hdir2 by done.
        intros Heq. apply (f_equal length) in Heq.
        rewrite !length_app in Heq. simpl in Heq. lia. }
    rewrite Em in Hfr.
    by destruct (walk (<[l ++ [a] := File 6 v]> (tree w1)) [] F) as [[]|];
      simplify_eq/=. }
  split; [|split].
  - by rewrite has_outcome, Hlook, Hdirnode.
  - unfold get. by rewrite read_or_not_found, Hlook, Hdirnode.
  - pose proof (delete_cases this k w') as Hc. cbv zeta in Hc.
    by rewrite Hc, Hlook, Hdirnode.
Qed.

Lemma key_shadowed_by_directory_witness :
  let w' := after (put store key_a_data_b (bytes_of "x")) opened in
  (extension default_options ≠ [] ∧ (slash ∉ extension default_options) ∧
   valid_key key_a ∧ valid_key key_a_data_b ∧
   toString (parent key_a_data_b) =
     toString key_a ++ extension default_options ∧
   put store key_a_data_b (bytes_of "x") opened = (Ok tt, w')) ∧
  has store key_a opened = (Ok false, opened) ∧
  has store key_a w' = (Ok true, w') ∧
  get store key_a w' = (Err (mkError "ERR_NOT_FOUND" "read"), w') ∧
  delete store key_a w' = (Err (mkError "ERR_DB_DELETE_FAILED" "unlink"), w').
Proof.
  assert (H1 : toString (parent key_a_data_b) =
               toString key_a ++ extension default_options)
    by (vm_compute; reflexivity).
  assert (H2 : put store key_a_data_b (bytes_of "x") opened =
               (Ok tt, after (put store key_a_data_b (bytes_of "x")) opened))
    by (vm_compute; reflexivity).
  split; [|split].
  - exact (conj (proj1 default_extension_ok) (conj (proj2 default_extension_ok)
             (conj valid_key_a (conj valid_key_a_data_b (conj H1 H2))))).
  - vm_compute. reflexivity.
  - exact (key_shadowed_by_directory (str "/") (str "/r") default_options
             key_a key_a_data_b (bytes_of "x") opened _
             (proj1 default_extension_ok) (proj2 default_extension_ok)
             valid_key_a valid_key_a_data_b H1 H2).
Defined.

(** *** Raw names and tagged names *)



(** X9: when [putRaw k v] succeeded and the environment did not answer its
    rename with the EPERM error that [writeFile] resolves as a race,
    [getRaw k] afterwards returns exactly [v]. *)
Theorem getRaw_after_putRaw (this : FsDatastore) (k : Key) (v : list byte)
    (w w' : world) :
  putRaw this k v w = (Ok tt, w') →
  write_faults w !!
    segments (slice (file (_encode this k)) 0 (- len (extension (opts this)))) ≠
    Some (mkError "EPERM" "rename") →
  getRaw this k w' = (Ok v, w').
Proof.
  unfold putRaw, getRaw. io_unfold. intros Hput Hfault.
  destruct (mkdirp _ w) as [[[]|e1] w1] eqn:Em; [|discriminate].
  apply mkdirp_faults in Em.
  apply writeFile_ok_cases in Hput as [Hwa|(Hf & _)].
  - by rewrite (read_after_write _ _ _ _ Hwa).
  - exfalso. apply Hfault. by rewrite <- Em.
Qed.

Lemma getRaw_after_putRaw_witness :
  let w' := after (putRaw store key_a_b []) opened in
  putRaw store key_a_b [] opened = (Ok tt, w') ∧
  write_faults opened !!
    segments (slice (file (_encode store key_a_b)) 0
                (- len (extension (opts store)))) ≠
    Some (mkError "EPERM" "rename") ∧
  getRaw store key_a_b w' = (Ok [], w').
Proof.
  assert (H1 : putRaw store key_a_b [] opened =
               (Ok tt, after (putRaw store key_a_b []) opened))
    by (vm_compute; reflexivity).
  assert (H2 : write_faults opened !!
                 segments (slice (file (_encode store key_a_b)) 0
                             (- len (extension (opts store)))) ≠
               Some (mkError "EPERM" "rename"))
    by (vm_compute; discriminate).
  split; [exact H1|]. split; [exact H2|].
  exact (getRaw_after_putRaw store key_a_b [] opened _ H1 H2).
Defined.

(** *** Opening again *)

(** X10: after an [open] that succeeded the root exists, and opening again
    changes nothing: it succeeds when [errorIfExists] is unset and fails with
    DBOpenFailed when it is set. *)
Theorem open_again (this : FsDatastore) (w w' : world) :
  open this w = (Ok tt, w') →
  existsSync (path this) w' = (Ok true, w') ∧
  open this w' =
    (if errorIfExists (opts this)
     then Err (mkError "ERR_DB_OPEN_FAILED" "") else Ok tt, w').
Proof.
  intros Hopen.
  assert (Hex : existsSync (path this) w' = (Ok true, w')).
  { revert Hopen. unfold open, existsSync. io_unfold.
    destruct (lookup_path (path this) (tree w)) as [n|c] eqn:El.
    - cbn. destruct (errorIfExists (opts this)); cbn.
      + destruct (createIfMissing (opts this)); discriminate.
      + intros [= <-]. by rewrite El.
    - cbn. destruct (createIfMissing (opts this)); cbn; [|discriminate].
      unfold mkdirp_sync. intros Hm. pose proof (mkdirp_ok_dir _ _ _ Hm) as Hd.
      unfold lookup_path. destruct (path this) as [|c0 p]; [done|].
      by rewrite Hd. }
  split; [done|].
  unfold open. io_unfold. rewrite Hex. cbn.
  destruct (errorIfExists (opts this)); cbn; [|done].
  by destruct (createIfMissing (opts this)).
Qed.

Lemma open_again_witness :
  open store empty_world = (Ok tt, opened) ∧
  existsSync (path store) opened = (Ok true, opened) ∧
  open store opened = (Ok tt, opened).
Proof.
  assert (H : open store empty_world = (Ok tt, opened))
    by (vm_compute; reflexivity).
  split; [exact H|]. exact (open_again store empty_world opened H).
Defined.

(** *** The query without a prefix *)


















(** X13: for every query, the keys yielded with values are an initial part
    of the keys yielded without, in the same order, and all of them when the
    iteration with values ends without error; each entry yielded with values
    carries one. *)
Theorem values_keys_initial (this : FsDatastore) (q : query) (w : world) :
  let qv := {| prefix := prefix q; keysOnly := false |} in
  let qk := {| prefix := prefix q; keysOnly := true |} in
  key <$> fst (_all this qv w) `prefix_of` key <$> fst (_all this qk w) ∧
  (snd (_all this qv w) = None →
   snd (_all this qk w) = None ∧
   key <$> fst (_all this qv w) = key <$> fst (_all this qk w)) ∧
  Forall (λ e, value e ≠ None) (fst (_all this qv w)).
Proof.
  intros qv qk. unfold _all. cbn [negb keysOnly].
  change (_all_pattern this qk) with (_all_pattern this qv).
  generalize (glob_sync (_all_pattern this qv) w). intros files.
  split; [|split].
  - induction files as [|f files IH]; simpl; [done|].
    destruct (fsReadFile f w) as [[buf|e] w1]; [|apply prefix_nil].
    destruct (_decode this f) as [k|e]; [|done].
    destruct (map_iter _ files) as [ys e1], (map_iter _ files) as [zs e2].
    simpl in *. by apply prefix_cons.
  - induction files as [|f files IH]; simpl; [done|].
    destruct (fsReadFile f w) as [[buf|e] w1]; [|done].
    destruct (_decode this f) as [k|e]; [|done].
    destruct (map_iter _ files) as [ys e1], (map_iter _ files) as [zs e2].
    simpl in *. intros He. destruct (IH He) as [-> Hk].
    split; [done|]. f_equal. exact Hk.
  - apply map_iter_Forall. intros f e.
    destruct (fsReadFile f w) as [[buf|err] w1]; [|done].
    destruct (_decode this f); [|done]. by intros [= <-].
Qed.

Lemma values_keys_initial_witness :
  let qv := {| prefix := None; keysOnly := false |} in
  snd (_all store qv values_1) = None ∧
  (snd (_all store (keys_only None) values_1) = None ∧
   key <$> fst (_all store qv values_1) =
     key <$> fst (_all store (keys_only None) values_1)) ∧
  snd (_all store qv nested_data_world) = Some (mkError "EISDIR" "read") ∧
  key <$> fst (_all store qv nested_data_world) `prefix_of`
    key <$> fst (_all store (keys_only None) nested_data_world) ∧
  length (fst (_all store qv nested_data_world)) = 0%nat ∧
  length (fst (_all store (keys_only None) nested_data_world)) = 2%nat.
Proof.
  assert (H : snd (_all store {| prefix := None; keysOnly := false |}
                     values_1) = None) by (vm_compute; reflexivity).
  split; [exact H|]. split.
  - exact (proj1 (proj2 (values_keys_initial store
                           {| prefix := None; keysOnly := false |} values_1))
             H).
  - split; [vm_compute; reflexivity|].
    split.
    + exact (proj1 (values_keys_initial store
                      {| prefix := None; keysOnly := false |}
                      nested_data_world)).
    + split; vm_compute; reflexivity.
Defined.

(** *** The disk stays well formed *)

Lemma segments_names (p : jsstring) : Forall is_name (segments p).
Proof.
  unfold segments. apply Forall_forall. intros s Hs.
  apply list_elem_of_filter in Hs as [Hne Hin]. split; [done|].
  pose proof (split_pieces slash p) as H. rewrite Forall_forall in H.
  by apply H.
Qed.

Lemma mkdirp_wf (p : jsstring) (w : world) :
  wf (tree w) → wf (tree (snd (mkdirp p w))).
Proof.
  intros Hwf. destruct (mkdirp_state p w) as [->|(t' & Hrun & ->)]; [done|].
  cbn [snd]. rewrite tree_with_tree.
  pose proof (mkdirp_walk_inv _ _ _ _ Hrun) as Hnofile.
  destruct (mkdirp_walk_spec (tree w) [] (segments p) Hnofile)
    as (t'' & Hrun' & Hdirs & Hframe & Hmono).
  rewrite Hrun in Hrun'. injection Hrun' as <-. simpl in *.
  intros q s n Hn.
  destruct (tree w !! (q ++ [s])) as [n'|] eqn:Hold.
  - apply Hwf in Hold as [Hs Hq]. split; [done|]. by apply Hmono.
  - destruct (decide ((q ++ [s]) `prefix_of` segments p)) as [[rest Hp]|Hnp].
    + split.
      * pose proof (segments_names p) as Hnames. rewrite Hp in Hnames.
        apply Forall_app in Hnames as [Hnames _].
        apply Forall_app in Hnames as [_ Hnames]. by inversion Hnames.
      * assert (Hq : take (length q) (segments p) = q).
        { rewrite Hp, <- !app_assoc. by rewrite take_app_length. }
        rewrite <- Hq. apply Hdirs. rewrite Hp, !length_app. lia.
    + rewrite Hframe in Hn by (by apply not_prefix_take). congruence.
Qed.

Lemma writeFile_wf (p : jsstring) (v : list byte) (w : world) :
  wf (tree w) → wf (tree (snd (writeFile p v w))).
Proof.
  intros Hwf. destruct (writeFile_state p v w) as [->|Hwa]; [done|].
  pose proof (writeAtomic_ok_target _ _ _ _ Hwa) as Hnd.
  apply writeAtomic_ok in Hwa as (l & a & Hsg & _ & _ & Hw & _ & ->).
  rewrite Hsg in Hnd. rewrite tree_with_tree.
  apply walk_found in Hw as [_ Hl]. simpl in Hl.
  assert (Hll : l ≠ l ++ [a]).
  { intros H. apply (f_equal length) in H. rewrite length_app in H.
    simpl in H. lia. }
  intros q s n Hn.
  destruct (decide (q ++ [s] = l ++ [a])) as [Heq|Hne].
  - apply app_inj_tail in Heq as [-> ->]. split.
    + pose proof (segments_names p) as Hnames. rewrite Hsg in Hnames.
      apply Forall_app in Hnames as [_ Hnames]. by inversion Hnames.
    + by rewrite lookup_insert_ne.
  - rewrite lookup_insert_ne in Hn by done. apply Hwf in Hn as [Hs Hq].
    split; [done|]. rewrite lookup_insert_ne; [done|]. congruence.
Qed.

Lemma fsUnlink_wf (p : jsstring) (w : world) :
  wf (tree w) → wf (tree (snd (fsUnlink p w))).
Proof.
  intros Hwf. unfold fsUnlink.
  destruct (lookup_path p (tree w)) as [[m d|]|c] eqn:El; [|done..].
  cbn [snd]. rewrite tree_with_tree.
  assert (Hf : tree w !! segments p = Some (File m d)).
  { unfold lookup_path in El. destruct p as [|c p]; [done|].
    destruct (walk (tree w) [] (segments (c :: p))) as [[m' d'|]|c'] eqn:Ew;
      try done.
    destruct (trailingSeparator (c :: p)); [done|]. injection El as -> ->.
    by apply walk_found in Ew as [_ Hn]. }
  intros q s n Hn.
  apply lookup_delete_Some in Hn as [Hne Hn]. apply Hwf in Hn as [Hs Hq].
  split; [done|]. rewrite lookup_delete_ne; [done|]. congruence.
Qed.

(** X14: [open], [put], [putRaw] and [delete] keep the disk well formed
    (every node but the root has a name and lies in a directory), and [get],
    [getRaw] and [has] leave the disk as it is. *)
Theorem operations_keep_wf (this : FsDatastore) (k : Key) (v : list byte)
    (w : world) :
  wf (tree w) →
  wf (tree (snd (open this w))) ∧ wf (tree (snd (put this k v w))) ∧
  wf (tree (snd (putRaw this k v w))) ∧ wf (tree (snd (delete this k w))) ∧
  snd (get this k w) = w ∧ snd (getRaw this k w) = w ∧ snd (has this k w) = w.
Proof.
  intros Hwf. split_and!.
  - unfold open, existsSync. io_unfold.
    destruct (lookup_path (path this) (tree w)); cbn.
    + destruct (errorIfExists (opts this)); cbn; [|done].
      by destruct (createIfMissing (opts this)).
    + destruct (createIfMissing (opts this)); cbn; [|done].
      by apply mkdirp_wf.
  - rewrite put_state. io_unfold.
    pose proof (mkdirp_wf (dir (_encode this k)) w Hwf) as Hm.
    destruct (mkdirp _ w) as [[[]|e] w1]; [|done].
    by apply writeFile_wf.
  - unfold putRaw. io_unfold.
    pose proof (mkdirp_wf (dir (_encode this k)) w Hwf) as Hm.
    destruct (mkdirp _ w) as [[[]|e] w1]; [|done].
    by apply writeFile_wf.
  - unfold delete. io_unfold.
    pose proof (fsUnlink_wf (file (_encode this k)) w Hwf) as Hu.
    destruct (fsUnlink _ w) as [[[]|e] w1]; [done|].
    by destruct (code e =? "ENOENT")%string.
  - unfold get. by rewrite read_or_not_found.
  - unfold getRaw. by rewrite read_or_not_found.
  - by rewrite has_outcome.
Qed.

Lemma operations_keep_wf_witness :
  wf (tree opened) ∧
  wf (tree (snd (open store opened))) ∧
  wf (tree (snd (put store key_a_b (bytes_of "x") opened))) ∧
  wf (tree (snd (putRaw store key_a_b (bytes_of "x") opened))) ∧
  wf (tree (snd (delete store key_a_b opened))) ∧
  snd (get store key_a_b opened) = opened ∧
  snd (getRaw store key_a_b opened) = opened ∧
  snd (has store key_a_b opened) = opened.
Proof.
  assert (H : wf (tree opened)) by (apply wfb_wf; vm_compute; reflexivity).
  split; [exact H|].
  exact (operations_keep_wf store key_a_b (bytes_of "x") opened H).
Defined.

(** *** Writing again, and deleting what was written *)

Lemma mkdirp_walk_existing (t : fstree) pre rest :
  (∀ i, (i ≤ length rest)%nat → t !! (pre ++ take i rest) = Some Dir) →
  mkdirp_walk t pre rest = inr t.
Proof.
  revert pre. induction rest as [|s rest IH]; intros pre H; simpl.
  - specialize (H 0%nat). simpl in H. rewrite app_nil_r in H.
    by rewrite H by lia.
  - pose proof (H 0%nat) as H0. simpl in H0. rewrite app_nil_r in H0.
    rewrite H0 by lia. apply IH. intros i Hi.
    rewrite <- app_assoc. apply (H (S i)). simpl. lia.
Qed.

Lemma with_tree_same (w : world) : with_tree w (tree w) = w.
Proof. by destruct w. Qed.

Lemma mkdirp_existing (p : jsstring) (w : world) :
  p ≠ [] → walk (tree w) [] (segments p) = Found Dir →
  mkdirp p w = (Ok tt, w).
Proof.
  intros Hp Hw. unfold mkdirp. destruct p as [|c p]; [done|].
  rewrite mkdirp_walk_existing, with_tree_same; [done|].
  intros i Hi. apply walk_found in Hw as [Hd Hn]. simpl in *.
  destruct (decide (i = length (segments (c :: p)))) as [->|Hne].
  - by rewrite firstn_all.
  - apply Hd. lia.
Qed.

Lemma writeAtomic_again (p : jsstring) (v : list byte) (w w' : world) :
  writeAtomic p v w = (Ok tt, w') → writeAtomic p v w' = (Ok tt, w').
Proof.
  intros H. pose proof H as H'.
  apply writeAtomic_ok in H' as (l & a & Hs & Hp & Ht & Hw & Hf & ->).
  unfold writeAtomic. rewrite faults_with_tree, tree_with_tree, Hs, Hf.
  destruct p as [|c p]; [done|].
  destruct (l ++ [a]) as [|s0 segs0] eqn:Hla; [by destruct l|].
  rewrite Ht, <- Hla, removelast_last.
  assert (walk (<[l ++ [a] := File 6 v]> (tree w)) [] l = Found Dir) as ->.
  { rewrite <- Hw. apply walk_ext. intros i Hi. simpl.
    apply lookup_insert_ne. intros Heq. apply (f_equal length) in Heq.
    rewrite length_app, length_take in Heq. simpl in Heq. lia. }
  rewrite lookup_insert_eq. unfold with_tree. cbn [tree write_faults].
  by rewrite insert_insert_eq.
Qed.

(** X15: a [put] that succeeded can be repeated: the same [put] on the disk
    it left succeeds and leaves that disk unchanged, for every key and every
    world. *)
Theorem put_again (this : FsDatastore) (k : Key) (v : list byte)
    (w w' : world) :
  put this k v w = (Ok tt, w') → put this k v w' = (Ok tt, w').
Proof.
  rewrite !put_cases. intros Hput.
  destruct (mkdirp _ w) as [[[]|e1] w1] eqn:Em; [|discriminate].
  assert (Hne : dir (_encode this k) ≠ []).
  { intros H. rewrite H in Em. discriminate. }
  apply mkdirp_ok_dir in Em.
  destruct (writeFile _ v w1) as [[[]|e2] w2] eqn:Ew; [|discriminate].
  injection Hput as ->.
  destruct (writeFile_ok_cases _ _ _ _ Ew) as [Hwa|(_ & -> & _)].
  - assert (Hd : walk (tree w') [] (segments (dir (_encode this k))) = Found Dir).
    { pose proof (writeAtomic_ok_target _ _ _ _ Hwa) as Hnd.
      pose proof Hwa as Hwa'.
      apply writeAtomic_ok in Hwa' as (l & a & Hsg & _ & _ & _ & _ & ->).
      rewrite Hsg in Hnd. rewrite tree_with_tree.
      assert (Hfr : found_of (walk (<[l ++ [a] := File 6 v]> (tree w1)) []
                                (segments (dir (_encode this k)))) =
                    found_of (walk (tree w1) []
                                (segments (dir (_encode this k))))).
      { apply leaf_change_frame with (F := l ++ [a]); [|done| |].
        - intros q Hq. by apply lookup_insert_ne.
        - by rewrite lookup_insert_eq.
        - intros Heq. rewrite Heq in Em.
          by apply walk_found in Em as [_ Hn]. }
      rewrite Em in Hfr.
      by destruct (walk (<[l ++ [a] := File 6 v]> (tree w1)) [] _) as [[]|];
        simplify_eq/=. }
    rewrite (mkdirp_existing _ _ Hne Hd), writeFile_cases.
    by rewrite (writeAtomic_again _ _ _ _ Hwa).
  - by rewrite (mkdirp_existing _ _ Hne Em), Ew.
Qed.

Lemma put_again_witness :
  let w' := after (put store key_a_b (bytes_of "x")) opened in
  put store key_a_b (bytes_of "x") opened = (Ok tt, w') ∧ opened ≠ w' ∧
  put store key_a_b (bytes_of "x") w' = (Ok tt, w').
Proof.
  assert (H : put store key_a_b (bytes_of "x") opened =
              (Ok tt, after (put store key_a_b (bytes_of "x")) opened))
    by (vm_compute; reflexivity).
  split; [exact H|]. split.
  - intros Heq.
    apply (f_equal (λ x, tree x !! [str "r"; str "a"])) in Heq.
    vm_compute in Heq. discriminate.
  - exact (put_again store key_a_b (bytes_of "x") opened _ H).
Defined.

(** X16: when [put k v] succeeded and the environment did not answer its
    rename with the EPERM error that [writeFile] resolves as a race,
    [delete k] afterwards succeeds, and then [has k] answers [false] and
    [get k] fails with NotFound. *)
Theorem delete_after_put (this : FsDatastore) (k : Key) (v : list byte)
    (w w' : world) :
  put this k v w = (Ok tt, w') →
  write_faults w !! segments (file (_encode this k)) ≠
    Some (mkError "EPERM" "rename") →
  ∃ w'', delete this k w' = (Ok tt, w'') ∧
         has this k w'' = (Ok false, w'') ∧
         get this k w'' = (Err (mkError "ERR_NOT_FOUND" "open"), w'').
Proof.
  rewrite put_cases. intros Hput Hfault.
  destruct (mkdirp _ w) as [[[]|e1] w1] eqn:Em; [|discriminate].
  apply mkdirp_faults in Em.
  destruct (writeFile _ v w1) as [[[]|e2] w2] eqn:Ew; [|discriminate].
  injection Hput as ->.
  apply writeFile_ok_cases in Ew as [Hwa|(Hf & _)];
    [|exfalso; apply Hfault; by rewrite <- Em].
  apply lookup_after_write in Hwa.
  pose proof (delete_cases this k w') as Hc. cbv zeta in Hc.
  rewrite Hwa in Hc. eexists. split; [exact Hc|].
  pose proof (lookup_after_unlink _ _ _ _ Hwa) as Hgone.
  rewrite has_outcome. unfold get.
  by rewrite read_or_not_found, tree_with_tree, Hgone.
Qed.

Lemma delete_after_put_witness :
  let w' := after (put store key_a_b (bytes_of "x")) opened in
  put store key_a_b (bytes_of "x") opened = (Ok tt, w') ∧
  write_faults opened !! segments (file (_encode store key_a_b)) ≠
    Some (mkError "EPERM" "rename") ∧
  ∃ w'', delete store key_a_b w' = (Ok tt, w'') ∧
         has store key_a_b w'' = (Ok false, w'') ∧
         get store key_a_b w'' = (Err (mkError "ERR_NOT_FOUND" "open"), w'').
Proof.
  assert (H1 : put store key_a_b (bytes_of "x") opened =
               (Ok tt, after (put store key_a_b (bytes_of "x")) opened))
    by (vm_compute; reflexivity).
  assert (H2 : write_faults opened !! segments (file (_encode store key_a_b)) ≠
               Some (mkError "EPERM" "rename"))
    by (vm_compute; discriminate).
  split; [exact H1|]. split; [exact H2|].
  exact (delete_after_put store key_a_b (bytes_of "x") opened _ H1 H2).
Defined.

(** *** Reading *)

(** X17: [get] and [has] agree: when [get k] returns a value [has k] is
    [true], and when [has k] is [false] [get k] fails; every failure of
    [get] and of [getRaw] is a NotFound error, whatever made the read
    fail. *)
Theorem get_and_has (this : FsDatastore) (k : Key) (w : world) :
  (∀ v, fst (get this k w) = Ok v → has this k w = (Ok true, w)) ∧
  (has this k w = (Ok false, w) →
   get this k w = (Err (mkError "ERR_NOT_FOUND" "open"), w)) ∧
  (∀ e, fst (get this k w) = Err e → code e = "ERR_NOT_FOUND"%string) ∧
  (∀ e, fst (getRaw this k w) = Err e → code e = "ERR_NOT_FOUND"%string).
Proof.
  assert (Hcode : ∀ o e, read_outcome o = Err e →
                         code e = "ERR_NOT_FOUND"%string).
  { intros [[m d|]|] e; simpl; try (by intros [= <-]).
    destruct (Z.land m R_OK =? R_OK); [done|by intros [= <-]]. }
  unfold get, getRaw. rewrite has_outcome, !read_or_not_found. cbn [fst].
  split_and!.
  - intros v. by destruct (found_of _) as [[m d|]|].
  - by destruct (found_of _) as [[m d|]|].
  - intros e. apply Hcode.
  - intros e. apply Hcode.
Qed.

Lemma get_and_has_witness :
  has store key_a opened = (Ok false, opened) ∧
  get store key_a opened = (Err (mkError "ERR_NOT_FOUND" "open"), opened) ∧
  fst (get store key_a nested_data_world) =
    Err (mkError "ERR_NOT_FOUND" "read") ∧
  fst (get store key_a race_world) = Ok (bytes_of "old") ∧
  has store key_a race_world = (Ok true, race_world).
Proof.
  assert (H1 : has store key_a opened = (Ok false, opened))
    by (vm_compute; reflexivity).
  assert (H2 : fst (get store key_a race_world) = Ok (bytes_of "old"))
    by (vm_compute; reflexivity).
  split; [exact H1|]. split.
  - exact (proj1 (proj2 (get_and_has store key_a opened)) H1).
  - split; [vm_compute; reflexivity|]. split; [exact H2|].
    exact (proj1 (get_and_has store key_a race_world) _ H2).
Defined.

(** *** The root of a datastore *)

(** X18: the constructor resolves the location: the root is absolute and
    made of clean names only, without ['.'], ['..'], empty segment or
    trailing separator; resolving the root again gives the root, and the
    working directory plays no part when the location is absolute. *)
Theorem root_is_resolved (cwd cwd' location : jsstring) (o : options) :
  let this := new_FsDatastore cwd location o in
  path this = path_of (segments (path this)) ∧
  Forall clean_name (segments (path this)) ∧
  new_FsDatastore cwd' (path this) o = this ∧
  (isAbsolute location = true → new_FsDatastore cwd' location o = this).
Proof.
  intros this. destruct (root_form cwd location o) as (rs & Hroot & Hrs).
  fold this in Hroot.
  assert (Hsegs : segments (path this) = rs).
  { rewrite Hroot. apply segments_path_of. by apply clean_is_name. }
  split_and!.
  - by rewrite Hsegs.
  - by rewrite Hsegs.
  - assert (Hres : path_resolve cwd' (path this) = path this).
    { rewrite Hroot. unfold path_resolve.
      change (isAbsolute (path_of rs)) with true. cbn iota.
      rewrite normalizeString_clean; rewrite segments_path_of;
        try done; by apply clean_is_name. }
    unfold new_FsDatastore at 1. by rewrite Hres.
  - intros Habs. unfold this, new_FsDatastore, path_resolve. by rewrite Habs.
Qed.

Lemma root_is_resolved_witness :
  path (new_FsDatastore (str "/home/u") (str "./db/../store//") default_options)
    = str "/home/u/store" ∧
  isAbsolute (str "/r/./x/..") = true ∧
  new_FsDatastore (str "/tmp") (str "/r/./x/..") default_options = store.
Proof.
  split; [vm_compute; reflexivity|].
  assert (H : isAbsolute (str "/r/./x/..") = true) by reflexivity.
  split; [exact H|].
  exact (proj2 (proj2 (proj2 (root_is_resolved (str "/") (str "/tmp")
                                (str "/r/./x/..") default_options))) H).
Defined.
